(** * godot-twitch-bridge: the Twitch authorization flow and token cache

    A shallow embedding of [src/Server.mts].  The server object, the Node
    timer queue and the [_cache] directory are an explicit [World]; every
    handler is a function on worlds that also returns what was sent to the
    client.  The Twitch SDK calls ([addUserForCode], [getAccessTokenForUser],
    [getUserById], [addUser]) are results supplied by the environment.

    JavaScript runs a handler to its next [await] without interruption.  A
    file operation that is called and not awaited is recorded as in flight
    and has completed when the event loop settles it, which is never within
    the stretch of code that called it. *)

From Stdlib Require Import ZArith NArith Ascii String List Lia Bool.
From Stdlib Require Import DecimalString DecimalN.
From Stdlib Require Strings.Byte.
From stdpp Require Import base option gmap strings list.

Open Scope Z_scope.
Set Warnings "-register-all".

(* String concatenation unfolds on a constructor, as list concatenation does. *)
#[local] Arguments String.append !_ _ / : simpl nomatch.

(** ** JavaScript values used by the server *)

Module JS.

(** Strings are sequences of bytes (the UTF-8 form of the text). *)

Definition hex_digit (lower : bool) (n : N) : ascii :=
  let digits := if lower then "0123456789abcdef" else "0123456789ABCDEF" in
  match String.get (N.to_nat n) digits with
  | Some c => c
  | None => "0"%char
  end.

(** [buf.toString("hex")]: two lower-case digits per byte. *)
Definition hex_of_byte (b : Byte.byte) : string :=
  let n := Byte.to_N b in
  String (hex_digit true (n / 16)%N) (String (hex_digit true (n mod 16)%N) EmptyString).

Fixpoint Buffer_toString_hex (buf : list Byte.byte) : string :=
  match buf with
  | [] => EmptyString
  | b :: rest => hex_of_byte b +:+ Buffer_toString_hex rest
  end.

(** [crypto.randomBytes(size)]: [size] bytes drawn from the entropy source. *)
Definition crypto_randomBytes (size : nat) (entropy : nat -> Byte.byte) : list Byte.byte :=
  List.map entropy (seq 0 size).

(** The property names every object literal inherits from [Object.prototype]. *)
Definition Object_prototype_keys : list string :=
  [ "constructor"; "__defineGetter__"; "__defineSetter__"; "hasOwnProperty";
    "__lookupGetter__"; "__lookupSetter__"; "isPrototypeOf";
    "propertyIsEnumerable"; "toString"; "valueOf"; "__proto__";
    "toLocaleString" ].

(** The result of reading [obj[key]] on an object literal whose own
    properties hold values of type [V]. *)
Inductive PropertyValue (V : Type) :=
| Own (v : V)
| Inherited (key : string)
| Undefined.
Arguments Own {V} v.
Arguments Inherited {V} key.
Arguments Undefined {V}.

Definition get {V} (obj : gmap string V) (key : string) : PropertyValue V :=
  match obj !! key with
  | Some v => Own v
  | None =>
      if bool_decide (key ∈ Object_prototype_keys) then Inherited key else Undefined
  end.

(** Own properties hold objects (timer handles); the inherited ones are
    functions or [Object.prototype] itself.  All of them are truthy. *)
Definition truthy {V} (v : PropertyValue V) : bool :=
  match v with
  | Undefined => false
  | _ => true
  end.

(** [!s] on a string: only the empty string is falsy. *)
Definition string_truthy (s : string) : bool :=
  match s with
  | EmptyString => false
  | _ => true
  end.

(** [s.startsWith(p)] *)
Fixpoint startsWith (p s : string) : bool :=
  match p, s with
  | EmptyString, _ => true
  | String a p', String b s' => if Ascii.eqb a b then startsWith p' s' else false
  | String _ _, EmptyString => false
  end.

(** [s.split(c)] for a one-character separator. *)
Fixpoint split (c : ascii) (s : string) : list string :=
  match s with
  | EmptyString => [EmptyString]
  | String a s' =>
      if Ascii.eqb a c then EmptyString :: split c s'
      else match split c s' with
           | piece :: pieces => String a piece :: pieces
           | [] => [String a EmptyString] (* a split is never empty *)
           end
  end.

(** [xs.join(sep)] *)
Fixpoint join (sep : string) (xs : list string) : string :=
  match xs with
  | [] => EmptyString
  | [x] => x
  | x :: rest => x +:+ sep +:+ join sep rest
  end.

(** [String(n)] for a non-negative integer. *)
Definition Number_toString (n : N) : string :=
  NilEmpty.string_of_uint (N.to_uint n).

End JS.

(** ** JSON values *)

(** The result of [JSON.parse].  A number is kept as the exact decimal value
    [significand * 10 ^ exponent] of its literal. *)
Inductive json :=
| JNull
| JBool (b : bool)
| JNumber (significand exponent : Z)
| JString (s : string)
| JArray (items : list json)
| JObject (fields : list (string * json)).

(** [AccessToken] of the Twitch SDK.  The number fields are integers: a
    lifetime in seconds and an epoch time in milliseconds. *)
Record AccessToken := mkAccessToken {
  accessToken : string;
  refreshToken : option string;
  scope : list string;
  expiresIn : option Z;
  obtainmentTimestamp : Z;
}.

(** [HelixUser]: the fields the server reads. *)
Record HelixUser := mkHelixUser {
  id : string;
  name : string;
}.

(** ** URLs: the [application/x-www-form-urlencoded] query of a [URL] *)

Module URL.

(** Bytes the serializer leaves as they are: ASCII letters and digits and
    [*], [-], [.], [_]. *)
Definition unreserved (c : ascii) : bool :=
  let n := N_of_ascii c in
  ((48 <=? n) && (n <=? 57) || (65 <=? n) && (n <=? 90) || (97 <=? n) && (n <=? 122)
   || (n =? 42) || (n =? 45) || (n =? 46) || (n =? 95))%N.

Definition encode_byte (c : ascii) : string :=
  if Ascii.eqb c " " then "+"
  else if unreserved c then String c EmptyString
  else let n := N_of_ascii c in
       String "%" (String (JS.hex_digit false (n / 16)%N)
                          (String (JS.hex_digit false (n mod 16)%N) EmptyString)).

Fixpoint encode (s : string) : string :=
  match s with
  | EmptyString => EmptyString
  | String c rest => encode_byte c +:+ encode rest
  end.

(** [url.searchParams.toString()] *)
Definition serialize (params : list (string * string)) : string :=
  JS.join "&" (List.map (fun p => encode (fst p) +:+ "=" +:+ encode (snd p)) params).

(** [url.toString()] after the [append] calls: the address, [?], the query. *)
Definition toString (address : string) (params : list (string * string)) : string :=
  address +:+ "?" +:+ serialize params.

(** The reading side, as the authorization endpoint decodes the query. *)

Definition unhex (c : ascii) : option N :=
  let n := N_of_ascii c in
  if ((48 <=? n) && (n <=? 57))%N then Some (n - 48)%N
  else if ((65 <=? n) && (n <=? 70))%N then Some (n - 55)%N
  else if ((97 <=? n) && (n <=? 102))%N then Some (n - 87)%N
  else None.

Fixpoint decode (s : string) : string :=
  match s with
  | EmptyString => EmptyString
  | String c rest =>
      if Ascii.eqb c "+" then String " " (decode rest)
      else if Ascii.eqb c "%" then
        match rest with
        | String a (String b rest') =>
            match unhex a, unhex b with
            | Some hi, Some lo => String (ascii_of_N (16 * hi + lo)) (decode rest')
            | _, _ => String c (decode rest)
            end
        | _ => String c (decode rest)
        end
      else String c (decode rest)
  end.

(** Cuts [s] at the first occurrence of [c]. *)
Fixpoint cut (c : ascii) (s : string) : string * option string :=
  match s with
  | EmptyString => (EmptyString, None)
  | String a rest =>
      if Ascii.eqb a c then (EmptyString, Some rest)
      else let '(before, after) := cut c rest in (String a before, after)
  end.

Definition parse_pair (piece : string) : string * string :=
  let '(k, v) := cut "=" piece in
  (decode k, decode (default EmptyString v)).

Definition parse_query (query : string) : list (string * string) :=
  List.map parse_pair (List.filter JS.string_truthy (JS.split "&" query)).

(** The address before the first [?] and the decoded parameters after it. *)
Definition parse (href : string) : string * list (string * string) :=
  let '(address, query) := cut "?" href in
  (address, parse_query (default EmptyString query)).

End URL.

(** ** [JSON.stringify] and [JSON.parse] *)

Module JSON.

Definition dquote : ascii := ascii_of_N 34.
Definition backslash : ascii := ascii_of_N 92.

(** *** Writing *)

(** One character of a quoted string: the short escapes, [\u00xx] for the
    other control characters, everything else as it is. *)
Definition quote_char (c : ascii) : string :=
  let n := N_of_ascii c in
  if (n =? 34)%N then String backslash (String dquote EmptyString)
  else if (n =? 92)%N then String backslash (String backslash EmptyString)
  else if (n =? 8)%N then String backslash "b"
  else if (n =? 9)%N then String backslash "t"
  else if (n =? 10)%N then String backslash "n"
  else if (n =? 12)%N then String backslash "f"
  else if (n =? 13)%N then String backslash "r"
  else if (n <? 32)%N then
    String backslash
      ("u00" +:+ String (JS.hex_digit true (n / 16)%N)
                        (String (JS.hex_digit true (n mod 16)%N) EmptyString))
  else String c EmptyString.

Fixpoint quote_chars (s : string) : string :=
  match s with
  | EmptyString => EmptyString
  | String c rest => quote_char c +:+ quote_chars rest
  end.

Definition quote (s : string) : string :=
  String dquote (quote_chars s +:+ String dquote EmptyString).

(** A number whose value is an integer, as [JSON.stringify] writes it while
    its magnitude is below [1e21]: digit by digit.  From there on JavaScript
    writes an exponent; the number fields of a token (seconds, and
    milliseconds since 1970) are far below, see [safe_numbers]. *)
Definition stringify_integer (z : Z) : string :=
  (if z <? 0 then "-" else "") +:+ JS.Number_toString (Z.abs_N z).

Definition stringify_array (items : list string) : string :=
  "[" +:+ JS.join "," items +:+ "]".

Definition stringify_object (fields : list (string * string)) : string :=
  "{" +:+ JS.join "," (List.map (fun f => quote (fst f) +:+ ":" +:+ snd f) fields) +:+ "}".

Definition stringify_nullable {A} (write : A -> string) (v : option A) : string :=
  match v with
  | Some a => write a
  | None => "null"
  end.

(** [JSON.stringify(accessToken)] *)
Definition stringify (t : AccessToken) : string :=
  stringify_object
    [ ("accessToken", quote (accessToken t));
      ("refreshToken", stringify_nullable quote (refreshToken t));
      ("scope", stringify_array (List.map quote (scope t)));
      ("expiresIn", stringify_nullable stringify_integer (expiresIn t));
      ("obtainmentTimestamp", stringify_integer (obtainmentTimestamp t)) ].

(** The value [JSON.parse] gives back for an access token. *)
Definition of_nullable {A} (f : A -> json) (v : option A) : json :=
  match v with
  | Some a => f a
  | None => JNull
  end.

Definition of_AccessToken (t : AccessToken) : json :=
  JObject
    [ ("accessToken", JString (accessToken t));
      ("refreshToken", of_nullable JString (refreshToken t));
      ("scope", JArray (List.map JString (scope t)));
      ("expiresIn", of_nullable (fun z => JNumber z 0) (expiresIn t));
      ("obtainmentTimestamp", JNumber (obtainmentTimestamp t) 0) ].

(** *** Reading *)

Definition is_ws (c : ascii) : bool :=
  let n := N_of_ascii c in
  ((n =? 32) || (n =? 9) || (n =? 10) || (n =? 13))%N.

Fixpoint skip_ws (s : string) : string :=
  match s with
  | String c rest => if is_ws c then skip_ws rest else s
  | EmptyString => s
  end.

Definition is_digit (c : ascii) : bool :=
  let n := N_of_ascii c in ((48 <=? n) && (n <=? 57))%N.

(** The longest prefix of digits, and what follows it. *)
Fixpoint span_digits (s : string) : string * string :=
  match s with
  | String c rest =>
      if is_digit c then let '(ds, r) := span_digits rest in (String c ds, r)
      else (EmptyString, s)
  | EmptyString => (EmptyString, s)
  end.

Definition digits_value (ds : string) : option N :=
  N.of_uint <$> NilEmpty.uint_of_string ds.

(** [prefix] at the head of [s]: what follows it. *)
Fixpoint expect (prefix s : string) : option string :=
  match prefix, s with
  | EmptyString, _ => Some s
  | String a p, String b r => if Ascii.eqb a b then expect p r else None
  | String _ _, EmptyString => None
  end.

(** The fraction of a number: [.] and at least one digit. *)
Definition parse_fraction (s : string) : option (string * string) :=
  match s with
  | String c rest =>
      if Ascii.eqb c "." then
        match span_digits rest with
        | (EmptyString, _) => None
        | (ds, r) => Some (ds, r)
        end
      else Some (EmptyString, s)
  | EmptyString => Some (EmptyString, s)
  end.

(** The exponent of a number: [e] or [E], a sign, at least one digit. *)
Definition parse_exponent (s : string) : option (Z * string) :=
  match s with
  | String c rest =>
      if Ascii.eqb c "e" || Ascii.eqb c "E" then
        let '(negative, rest) :=
          match rest with
          | String sign r =>
              if Ascii.eqb sign "-" then (true, r)
              else if Ascii.eqb sign "+" then (false, r)
              else (false, rest)
          | EmptyString => (false, rest)
          end in
        match span_digits rest with
        | (EmptyString, _) => None
        | (ds, r) =>
            n ← digits_value ds;
            Some (if negative : bool then - Z.of_N n else Z.of_N n, r)
        end
      else Some (0, s)
  | EmptyString => Some (0, s)
  end.

(** A number after its sign: integer part without a leading zero, fraction,
    exponent. *)
Definition parse_magnitude (negative : bool) (s : string) : option (json * string) :=
  '(int_digits, s) ←
    match s with
    | String c rest =>
        if Ascii.eqb c "0" then Some (String c EmptyString, rest)
        else if is_digit c then Some (span_digits s)
        else None
    | EmptyString => None
    end;
  '(frac_digits, s) ← parse_fraction s;
  '(exponent, s) ← parse_exponent s;
  n ← digits_value (int_digits +:+ frac_digits);
  let significand := if negative then - Z.of_N n else Z.of_N n in
  Some (JNumber significand (exponent - Z.of_nat (String.length frac_digits)), s).

Definition parse_number (s : string) : option (json * string) :=
  match s with
  | String c rest =>
      if Ascii.eqb c "-" then parse_magnitude true rest else parse_magnitude false s
  | EmptyString => None
  end.

(** A piece of a string literal: a byte of the text, or the UTF-16 code
    unit of a [\uXXXX] escape. *)
Inductive piece :=
| Raw (c : ascii)
| CodeUnit (u : N).

Definition hex4 (a b c d : ascii) : option N :=
  x3 ← URL.unhex a; x2 ← URL.unhex b; x1 ← URL.unhex c; x0 ← URL.unhex d;
  Some (((x3 * 16 + x2) * 16 + x1) * 16 + x0)%N.

(** The characters of a string literal after its opening quote, up to the
    closing one. *)
Fixpoint parse_pieces (s : string) : option (list piece * string) :=
  match s with
  | EmptyString => None
  | String c rest =>
      if Ascii.eqb c dquote then Some ([], rest)
      else if Ascii.eqb c backslash then
        match rest with
        | String e rest' =>
            let simple (c' : ascii) :=
              '(ps, r) ← parse_pieces rest'; Some (Raw c' :: ps, r) in
            if Ascii.eqb e dquote then simple dquote
            else if Ascii.eqb e backslash then simple backslash
            else if Ascii.eqb e "/" then simple "/"%char
            else if Ascii.eqb e "b" then simple (ascii_of_N 8)
            else if Ascii.eqb e "f" then simple (ascii_of_N 12)
            else if Ascii.eqb e "n" then simple (ascii_of_N 10)
            else if Ascii.eqb e "r" then simple (ascii_of_N 13)
            else if Ascii.eqb e "t" then simple (ascii_of_N 9)
            else if Ascii.eqb e "u" then
              match rest' with
              | String h3 (String h2 (String h1 (String h0 rest''))) =>
                  u ← hex4 h3 h2 h1 h0;
                  '(ps, r) ← parse_pieces rest'';
                  Some (CodeUnit u :: ps, r)
              | _ => None
              end
            else None
        | EmptyString => None
        end
      else if (N_of_ascii c <? 32)%N then None
      else '(ps, r) ← parse_pieces rest; Some (Raw c :: ps, r)
  end.

(** UTF-8 for a code point (a lone surrogate is written in the same
    three-byte form). *)
Definition utf8 (cp : N) : string :=
  let byte (n : N) := ascii_of_N n in
  if (cp <? 128)%N then String (byte cp) EmptyString
  else if (cp <? 2048)%N then
    String (byte (192 + cp / 64)%N) (String (byte (128 + cp mod 64)%N) EmptyString)
  else if (cp <? 65536)%N then
    String (byte (224 + cp / 4096)%N)
      (String (byte (128 + (cp / 64) mod 64)%N)
         (String (byte (128 + cp mod 64)%N) EmptyString))
  else
    String (byte (240 + cp / 262144)%N)
      (String (byte (128 + (cp / 4096) mod 64)%N)
         (String (byte (128 + (cp / 64) mod 64)%N)
            (String (byte (128 + cp mod 64)%N) EmptyString))).

Definition is_high_surrogate (u : N) : bool := ((55296 <=? u) && (u <=? 56319))%N.
Definition is_low_surrogate (u : N) : bool := ((56320 <=? u) && (u <=? 57343))%N.

(** The text of a string literal; a surrogate pair is one code point. *)
Fixpoint assemble (ps : list piece) : string :=
  match ps with
  | [] => EmptyString
  | Raw c :: rest => String c (assemble rest)
  | CodeUnit u :: rest =>
      match rest with
      | CodeUnit v :: rest' =>
          if is_high_surrogate u && is_low_surrogate v
          then utf8 (65536 + (u - 55296) * 1024 + (v - 56320))%N +:+ assemble rest'
          else utf8 u +:+ assemble rest
      | _ => utf8 u +:+ assemble rest
      end
  end.

Definition parse_string (s : string) : option (string * string) :=
  '(ps, r) ← parse_pieces s; Some (assemble ps, r).

(** [obj[k] = v] while an object literal is read: a repeated key keeps its
    place and takes the later value. *)
Fixpoint set_field (k : string) (v : json) (fields : list (string * json))
  : list (string * json) :=
  match fields with
  | [] => [(k, v)]
  | (k', v') :: rest =>
      if String.eqb k k' then (k', v) :: rest else (k', v') :: set_field k v rest
  end.

Definition object_of (members : list (string * json)) : json :=
  JObject (fold_left (fun fields m => set_field (fst m) (snd m) fields) members []).

(** One value at the head of [s] (after white space), and what follows. *)
Fixpoint parse_value (fuel : nat) (s : string) : option (json * string) :=
  match fuel with
  | O => None
  | S fuel =>
      match skip_ws s with
      | EmptyString => None
      | String c rest =>
          if Ascii.eqb c "{" then
            match skip_ws rest with
            | String c' rest' =>
                if Ascii.eqb c' "}" then Some (JObject [], rest')
                else '(ms, r) ← parse_members fuel rest; Some (object_of ms, r)
            | EmptyString => None
            end
          else if Ascii.eqb c "[" then
            match skip_ws rest with
            | String c' rest' =>
                if Ascii.eqb c' "]" then Some (JArray [], rest')
                else '(vs, r) ← parse_elements fuel rest; Some (JArray vs, r)
            | EmptyString => None
            end
          else if Ascii.eqb c dquote then
            '(text, r) ← parse_string rest; Some (JString text, r)
          else if Ascii.eqb c "t" then r ← expect "rue" rest; Some (JBool true, r)
          else if Ascii.eqb c "f" then r ← expect "alse" rest; Some (JBool false, r)
          else if Ascii.eqb c "n" then r ← expect "ull" rest; Some (JNull, r)
          else parse_number (String c rest)
      end
  end
with parse_elements (fuel : nat) (s : string) : option (list json * string) :=
  match fuel with
  | O => None
  | S fuel =>
      '(v, r) ← parse_value fuel s;
      match skip_ws r with
      | String c r' =>
          if Ascii.eqb c "," then
            '(vs, r'') ← parse_elements fuel r'; Some (v :: vs, r'')
          else if Ascii.eqb c "]" then Some ([v], r')
          else None
      | EmptyString => None
      end
  end
with parse_members (fuel : nat) (s : string) : option (list (string * json) * string) :=
  match fuel with
  | O => None
  | S fuel =>
      match skip_ws s with
      | String q r =>
          if Ascii.eqb q dquote then
            '(k, r) ← parse_string r;
            match skip_ws r with
            | String colon r =>
                if Ascii.eqb colon ":" then
                  '(v, r) ← parse_value fuel r;
                  match skip_ws r with
                  | String c r' =>
                      if Ascii.eqb c "," then
                        '(ms, r'') ← parse_members fuel r'; Some ((k, v) :: ms, r'')
                      else if Ascii.eqb c "}" then Some ([(k, v)], r')
                      else None
                  | EmptyString => None
                  end
                else None
            | EmptyString => None
            end
          else None
      | EmptyString => None
      end
  end.

(** [JSON.parse(text)]; [None] is the [SyntaxError] it throws.  No value
    needs more steps than twice the length of the text. *)
Definition parse (text : string) : option json :=
  '(v, r) ← parse_value (2 * String.length text + 2) text;
  match skip_ws r with
  | EmptyString => Some v
  | String _ _ => None
  end.

(** [!value] is false for these. *)
Definition truthy (v : json) : bool :=
  match v with
  | JNull => false
  | JBool b => b
  | JNumber significand exponent =>
      (* a double is zero when the literal is at most 2^-1075 in size *)
      negb ((significand =? 0)
            || (exponent <? 0)
               && (Z.abs significand * 2 ^ 1075 <=? 10 ^ (- exponent)))
  | JString s => JS.string_truthy s
  | JArray _ => true
  | JObject _ => true
  end.

End JSON.

(** ** Configuration and the server object *)

Record TwitchConfig := mkTwitchConfig {
  clientId : string;
  clientSecret : string;
}.

Record BotConfig := mkBotConfig {
  user : string;
  channel : string;
}.

(** [ServerConfig]; [port] and [hostName] may be missing from the parsed
    YAML, which is what the [??] in the constructor is for. *)
Record ServerConfig := mkServerConfig {
  twitch : TwitchConfig;
  bot : BotConfig;
  port : option N;
  hostName : option string;
}.

(** The fields of [Server] that never change after construction. *)
Record Server := mkServer {
  fullyQualifiedHostName : string;
  twitchConfig : TwitchConfig;
  botConfig : BotConfig;
}.

Definition DEFAULT_TWITCH_AUTH_TIMEOUT : Z := 1000 * 60 * 5.

Definition twitchScopes : list string :=
  [ "chat:read"; "chat:edit"; "channel:read:redemptions";
    "channel:manage:redemptions"; "moderator:read:followers" ].

(** [new Server(options)] *)
Definition constructor (options : ServerConfig) : Server :=
  let port := default 13371%N (port options) in
  let hostName := default "localhost" (hostName options) in
  {| fullyQualifiedHostName :=
       "http://" +:+ hostName +:+
       (if (port =? 0)%N then "" else ":" +:+ JS.Number_toString port);
     twitchConfig := twitch options;
     botConfig := bot options |}.

(** ** The world a handler runs in *)

(** A pending [setTimeout] of [routeRedirectTwitchAuth]: the closure only
    captures the state key. *)
Record Timer := mkTimer {
  handle : nat;
  deadline : Z;
  key : string;
}.

(** A file operation that was started and has not completed yet. *)
Inductive FsOp :=
| WriteFile (fileName content : string)
| Rm (fileName : string).

Inductive Exn :=
| ENOENT (fileName : string)
| ENOTDIR (path : string)
| EISDIR (path : string)
| ENAMETOOLONG (path : string)
| ERR_INVALID_ARG_VALUE (path : string)
| SyntaxError
| TwitchError (message : string).

(** What a handler did to the world outside, in program order (console
    output is not recorded). *)
Inductive Effect :=
| SetTimeout (h : nat) (stateKey : string) (delay : Z)
| AddUserForCode (code : string)
| GetAccessTokenForUser (userId : string)
| GetUserById (userId : string)
| AddUser (userId : string) (token : json)
| WriteFileStarted (fileName content : string)
| WriteFileDone (fileName : string)
| RmStarted (fileName : string)
| RmDone (fileName : string)
| UnhandledRejection (e : Exn)
| CreateBot (u : HelixUser)
| Send (status : Z) (body : string).

(** [twitchAuthState] holds the own properties of [this.twitchAuthState].
    [cacheDir] is the directory [./_cache], which exists and holds plain
    files: it maps a file name to the content that the completed file
    operations have left there.  While a write is in flight its file may
    already be there, empty or in part; [cacheDir] shows the write only once
    it has completed.  The key of a cache file is what the code puts after
    [./_cache/] in its path, [twitch.<id>.json]; that is the entry of this
    name in the directory when it is a file name ([is_file_name] and
    [cachePath] below), which holds for the user ids Twitch issues. *)
Record World := mkWorld {
  twitchAuthState : gmap string nat;
  timers : list Timer;
  nextHandle : nat;
  now : Z;
  cacheDir : gmap string string;
  inflight : list FsOp;
  trace : list Effect;
}.

Definition set_twitchAuthState (f : gmap string nat -> gmap string nat) (w : World) : World :=
  mkWorld (f (twitchAuthState w)) (timers w) (nextHandle w) (now w)
          (cacheDir w) (inflight w) (trace w).

Definition set_cacheDir (f : gmap string string -> gmap string string) (w : World) : World :=
  mkWorld (twitchAuthState w) (timers w) (nextHandle w) (now w)
          (f (cacheDir w)) (inflight w) (trace w).

Definition set_inflight (f : list FsOp -> list FsOp) (w : World) : World :=
  mkWorld (twitchAuthState w) (timers w) (nextHandle w) (now w)
          (cacheDir w) (f (inflight w)) (trace w).

Definition emit (e : Effect) (w : World) : World :=
  mkWorld (twitchAuthState w) (timers w) (nextHandle w) (now w)
          (cacheDir w) (inflight w) (trace w ++ [e]).

(** [setTimeout(callback, delay)] where the callback expires [stateKey]. *)
Definition setTimeout (stateKey : string) (delay : Z) (w : World) : nat * World :=
  let h := nextHandle w in
  (h, mkWorld (twitchAuthState w)
              (timers w ++ [mkTimer h (now w + delay) stateKey])
              (S h) (now w) (cacheDir w) (inflight w)
              (trace w ++ [SetTimeout h stateKey delay])).

Definition initialWorld : World :=
  mkWorld ∅ [] 0 0 ∅ [] [].


(** ** Responses, promises and the Twitch SDK *)

(** A response, with the headers the handler sets itself. *)
Record Response := mkResponse {
  status : Z;
  headers : list (string * string);
  body : string;
}.

(** How a request ends: a response was sent, or the handler's promise was
    rejected before anything was sent. *)
Inductive Outcome :=
| Sent (r : Response)
| Unanswered (e : Exn).

(** A settled promise. *)
Inductive Completion (A : Type) :=
| Resolved (a : A)
| Rejected (e : Exn).
Arguments Resolved {A} a.
Arguments Rejected {A} e.

(** What the SDK calls settle to.  [addUser] is not awaited: it returns, or
    it throws when the provider does not accept the token (one without a
    refresh token, for instance), and [Rejected] stands for the throw. *)
Record Twitch := mkTwitch {
  addUserForCode : string -> Completion string;
  getAccessTokenForUser : string -> Completion (option AccessToken);
  getUserById : string -> Completion (option HelixUser);
  addUser : string -> json -> Completion unit;
}.

(** [res.status(code).send(body)] *)
Definition send (code : Z) (text : string) (w : World) : World * Outcome :=
  (emit (Send code text) w, Sent (mkResponse code [] text)).

(** ** The file operations of the cache *)

(** [`./_cache/twitch.${userId}.json`] inside the cache directory. *)
Definition cacheFileName (userId : string) : string :=
  "twitch." +:+ userId +:+ ".json".

(** A file operation is called: it is in flight until the event loop
    settles it. *)
Definition start (op : FsOp) (w : World) : World :=
  let w := set_inflight (fun ops => ops ++ [op]) w in
  match op with
  | WriteFile f content => emit (WriteFileStarted f content) w
  | Rm f => emit (RmStarted f) w
  end.

(** The operation completes.  After [fs.writeFile] the file holds the new
    content; [fs.rm] without [force] rejects when the file does not exist. *)
Definition settle (op : FsOp) (w : World) : World * Completion unit :=
  match op with
  | WriteFile f content =>
      (emit (WriteFileDone f) (set_cacheDir (insert f content) w), Resolved tt)
  | Rm f =>
      match cacheDir w !! f with
      | Some _ => (emit (RmDone f) (set_cacheDir (delete f) w), Resolved tt)
      | None => (w, Rejected (ENOENT f))
      end
  end.

(** The event loop settles the [i]-th operation in flight.  Nobody awaits
    these promises, so a rejection is an unhandled one. *)
Definition settle_inflight (i : nat) (w : World) : World :=
  match inflight w !! i with
  | None => w
  | Some op =>
      let w := set_inflight (fun ops => take i ops ++ drop (S i) ops) w in
      match settle op w with
      | (w, Resolved _) => w
      | (w, Rejected e) => emit (UnhandledRejection e) w
      end
  end.

Fixpoint drain (fuel : nat) (w : World) : World :=
  match fuel with
  | O => w
  | S fuel => drain fuel (settle_inflight 0 w)
  end.

(** The event loop runs until no file operation is in flight. *)
Definition settle_all (w : World) : World :=
  drain (length (inflight w)) w.

(** ** The handlers of [Server] *)

Section Handlers.

Variable this : Server.

(** The state key of one authorization attempt:
    [crypto.randomBytes(20).toString("hex")]. *)
Definition freshState (entropy : nat -> Byte.byte) : string :=
  JS.Buffer_toString_hex (JS.crypto_randomBytes 20 entropy).

(** The query the authorization URL carries. *)
Definition authorizeParams (state : string) : list (string * string) :=
  [ ("client_id", clientId (twitchConfig this));
    ("redirect_uri", fullyQualifiedHostName this +:+ "/twitch/auth-callback");
    ("response_type", "code");
    ("scope", JS.join " " twitchScopes);
    ("state", state) ].

(** [GET /twitch/auth] *)
Definition routeRedirectTwitchAuth (entropy : nat -> Byte.byte) (w : World)
  : World * Outcome :=
  let state := freshState entropy in
  let '(h, w) := setTimeout state DEFAULT_TWITCH_AUTH_TIMEOUT w in
  let w := set_twitchAuthState (insert state h) w in
  let url := URL.toString "https://id.twitch.tv/oauth2/authorize" (authorizeParams state) in
  (emit (Send 302 "") w, Sent (mkResponse 302 [("Location", url)] "")).

(** The callback given to [setTimeout]:
    [if (this.twitchAuthState[state]) delete this.twitchAuthState[state]]. *)
Definition expire (state : string) (w : World) : World :=
  if JS.truthy (JS.get (twitchAuthState w) state)
  then set_twitchAuthState (delete state) w
  else w.

(** [cacheTwitchAccessToken(userId, accessToken)] up to its [await]: the
    write is started. *)
Definition cacheTwitchAccessToken (userId : string) (token : AccessToken) (w : World) : World :=
  start (WriteFile (cacheFileName userId) (JSON.stringify token)) w.

(** [await this.cacheTwitchAccessToken(userId, accessToken)]: the promise
    settles when the write has. *)
Definition await_cacheTwitchAccessToken (userId : string) (token : AccessToken) (w : World)
  : World * Completion unit :=
  let op := WriteFile (cacheFileName userId) (JSON.stringify token) in
  settle op (emit (WriteFileStarted (cacheFileName userId) (JSON.stringify token)) w).

(** [uncacheTwitchAccessToken(userId)] up to its [await]. *)
Definition uncacheTwitchAccessToken (userId : string) (w : World) : World :=
  start (Rm (cacheFileName userId)) w.

(** [await this.uncacheTwitchAccessToken(userId)] *)
Definition await_uncacheTwitchAccessToken (userId : string) (w : World)
  : World * Completion unit :=
  settle (Rm (cacheFileName userId)) (emit (RmStarted (cacheFileName userId)) w).

(** [createBot(user)] has no [await]: the bot is built within the call. *)
Definition createBot (u : HelixUser) (w : World) : World :=
  emit (CreateBot u) w.

(** A query parameter that is missing or empty. *)
Definition missing (param : option string) : bool :=
  match param with
  | Some s => negb (JS.string_truthy s)
  | None => true
  end.

(** The guard of the callback:
    [!authorizationCode || !state || !this.twitchAuthState[state]]. *)
Definition notLegit (code state : option string) (w : World) : bool :=
  missing code || missing state
  || match state with
     | Some s => negb (JS.truthy (JS.get (twitchAuthState w) s))
     | None => true
     end.

(** [GET /twitch/auth-callback?code=&state=] *)
Definition routeTwitchAuthCallback (tw : Twitch) (code state : option string) (w : World)
  : World * Outcome :=
  match code, state with
  | Some authorizationCode, Some st =>
      if notLegit code state w then send 400 "Invalid request." w
      else
        let w := set_twitchAuthState (delete st) w in
        let w := emit (AddUserForCode authorizationCode) w in
        match addUserForCode tw authorizationCode with
        | Rejected e => (w, Unanswered e)
        | Resolved twitchUserId =>
            let w := emit (GetAccessTokenForUser twitchUserId) w in
            match getAccessTokenForUser tw twitchUserId with
            | Rejected e => (w, Unanswered e)
            | Resolved None => send 500 "Failed to get access token." w
            | Resolved (Some token) =>
                let w := emit (GetUserById twitchUserId) w in
                match getUserById tw twitchUserId with
                | Rejected e => (w, Unanswered e)
                | Resolved None => send 500 "Failed to load user." w
                | Resolved (Some u) =>
                    let w := cacheTwitchAccessToken twitchUserId token w in
                    let w :=
                      if String.eqb (name u) (user (botConfig this))
                      then createBot u w else w in
                    send 200 ("welcome " +:+ name u +:+ "!") w
                end
            end
        end
  | _, _ => send 400 "Invalid request." w
  end.

(** [loadCachedTwitchAccessTokens()]: the loop over the file names that
    [readdir] returned.  A rejected [await], a throwing [JSON.parse] or a
    throwing [addUser] ends the whole function.  ([split(".")[1]] exists for
    every name that starts with [twitch.]; the default of [nth] is never
    used.)  The loop is followed here from one file to the next without the
    events that its awaits let in: a removal it starts is in flight when it
    ends, and settles afterwards. *)
Fixpoint loadCachedTwitchAccessTokens_loop (tw : Twitch) (fileNames : list string)
  (w : World) : World * Completion unit :=
  match fileNames with
  | [] => (w, Resolved tt)
  | fileName :: rest =>
      if negb (JS.startsWith "twitch." fileName)
      then loadCachedTwitchAccessTokens_loop tw rest w
      else
        let userId := nth 1 (JS.split "." fileName) EmptyString in
        match cacheDir w !! fileName with
        | None => (w, Rejected (ENOENT fileName))
        | Some content =>
            match JSON.parse content with
            | None => (w, Rejected SyntaxError)
            | Some token =>
                if negb (JSON.truthy token) then
                  loadCachedTwitchAccessTokens_loop tw rest (uncacheTwitchAccessToken userId w)
                else
                  let w := emit (AddUser userId token) w in
                  match addUser tw userId token with
                  | Rejected e => (w, Rejected e)
                  | Resolved _ =>
                      let w := emit (GetUserById userId) w in
                      match getUserById tw userId with
                      | Rejected e => (w, Rejected e)
                      | Resolved None => loadCachedTwitchAccessTokens_loop tw rest w
                      | Resolved (Some u) =>
                          let w :=
                            if String.eqb (name u) (user (botConfig this))
                            then createBot u w else w in
                          loadCachedTwitchAccessTokens_loop tw rest w
                      end
                  end
            end
        end
  end.

(** [fs.readdir] of the cache directory. *)
Definition readdir (w : World) : list string :=
  List.map fst (map_to_list (cacheDir w)).

Definition loadCachedTwitchAccessTokens (tw : Twitch) (w : World) : World * Completion unit :=
  loadCachedTwitchAccessTokens_loop tw (readdir w) w.

End Handlers.

Arguments freshState : simpl never.

(** ** The event loop *)

(** What can happen to a running server. *)
Inductive Event :=
| GetAuth (entropy : nat -> Byte.byte)
| GetAuthCallback (tw : Twitch) (code state : option string)
| TimerFires (h : nat)
| Elapse (ms : N)
| FsSettles (i : nat).

(** A timer runs its callback once, and not before its deadline. *)
Definition fire (h : nat) (w : World) : World :=
  match List.find (fun t => Nat.eqb (handle t) h) (timers w) with
  | Some t =>
      if deadline t <=? now w then
        expire (key t)
          (mkWorld (twitchAuthState w)
                   (List.filter (fun t => negb (Nat.eqb (handle t) h)) (timers w))
                   (nextHandle w) (now w) (cacheDir w) (inflight w) (trace w))
      else w
  | None => w
  end.

Definition elapse (ms : N) (w : World) : World :=
  mkWorld (twitchAuthState w) (timers w) (nextHandle w) (now w + Z.of_N ms)
          (cacheDir w) (inflight w) (trace w).

Definition step (this : Server) (ev : Event) (w : World) : World * option Outcome :=
  match ev with
  | GetAuth entropy =>
      let '(w, o) := routeRedirectTwitchAuth this entropy w in (w, Some o)
  | GetAuthCallback tw code state =>
      let '(w, o) := routeTwitchAuthCallback this tw code state w in (w, Some o)
  | TimerFires h => (fire h w, None)
  | Elapse ms => (elapse ms w, None)
  | FsSettles i => (settle_inflight i w, None)
  end.

(** The world after a sequence of events, and the history: each event with
    what it answered.  A callback runs here in one piece; its awaits let
    other events in, but only its first part, up to the first [await],
    reads or writes [twitchAuthState]. *)
Fixpoint run (this : Server) (evs : list Event) (w : World)
  : World * list (Event * option Outcome) :=
  match evs with
  | [] => (w, [])
  | ev :: rest =>
      let '(w, o) := step this ev w in
      let '(w, history) := run this rest w in
      (w, (ev, o) :: history)
  end.

(** ** Vocabulary of the properties *)

(** The event is a callback that presents [n] as its state. *)
Definition carries (n : string) (ev : Event) : bool :=
  match ev with
  | GetAuthCallback _ _ (Some s) => String.eqb s n
  | _ => false
  end.

(** The event is an authorization request that draws [n] again. *)
Definition reissues (n : string) (ev : Event) : bool :=
  match ev with
  | GetAuth entropy => String.eqb (freshState entropy) n
  | _ => false
  end.

Definition invalidRequest : Outcome := Sent (mkResponse 400 [] "Invalid request.").

Definition is400 (o : option Outcome) : bool :=
  match o with
  | Some (Sent r) => status r =? 400
  | _ => false
  end.

(** A callback presenting [n] that got past the guard. *)
Definition validated (n : string) (entry : Event * option Outcome) : bool :=
  carries n (fst entry) && negb (is400 (snd entry)).

(** [n] is a key of [twitchAuthState]. *)
Definition pending (n : string) (w : World) : Prop :=
  is_Some (twitchAuthState w !! n).

(** Timer handles are handed out in increasing order. *)
Definition handles_fresh (w : World) : Prop :=
  Forall (fun t => (handle t < nextHandle w)%nat) (timers w).

(** Digits of a lower-case hexadecimal number. *)
Definition is_lower_hex (c : ascii) : bool :=
  let n := N_of_ascii c in
  ((48 <=? n) && (n <=? 57) || (97 <=? n) && (n <=? 102))%N.

Fixpoint all_hex (s : string) : bool :=
  match s with
  | EmptyString => true
  | String c rest => is_lower_hex c && all_hex rest
  end.

(** The event is the timer [h] running its callback. *)
Definition fires (h : nat) (ev : Event) : bool :=
  match ev with
  | TimerFires h' => Nat.eqb h' h
  | _ => false
  end.

(** If the entry is a callback presenting [n], it was answered 400. *)
Definition rejects_replay (n : string) (entry : Event * option Outcome) : Prop :=
  carries n (fst entry) = true -> snd entry = Some invalidRequest.

(** The timer with handle [h] is still waiting, and it is [t]. *)
Definition armed (h : nat) (t : Timer) (w : World) : Prop :=
  List.find (fun t' => Nat.eqb (handle t') h) (timers w) = Some t.

(** The character [c] does not occur in [s]. *)
Fixpoint free (c : ascii) (s : string) : bool :=
  match s with
  | EmptyString => true
  | String a rest => negb (Ascii.eqb a c) && free c rest
  end.

(** Nothing at the head of [rest] continues a number. *)
Definition ends_number (rest : string) : bool :=
  match rest with
  | String c _ =>
      negb (JSON.is_digit c || Ascii.eqb c "." || Ascii.eqb c "e" || Ascii.eqb c "E")
  | EmptyString => true
  end.

(** The part of [s] before its first [.]; all of [s] when it has none. *)
Definition upToDot (s : string) : string := fst (URL.cut "." s).

(** In the trace [tr], a cache file write has completed before any bot is
    created. *)
Definition saved_before_bot (tr : list Effect) : Prop :=
  forall i u, tr !! i = Some (CreateBot u) ->
  exists j f, (j < i)%nat /\ tr !! j = Some (WriteFileDone f).

(** *** Sample values *)

Definition sampleServer : Server :=
  constructor (mkServerConfig (mkTwitchConfig "sample-client" "sample-secret")
                              (mkBotConfig "papakumo" "papakumo") None None).

Definition sampleEntropy (i : nat) : Byte.byte :=
  default Byte.x00 (Byte.of_N (N.of_nat (7 + 13 * i))).

Definition sampleToken : AccessToken :=
  mkAccessToken "X" (Some "R") ["chat:read"; "chat:edit"] (Some 14000) 1690000000000.

(** A user id that is one NUL, and one of 250 characters. *)
Definition nulId : string := String (ascii_of_N 0) EmptyString.

Definition longId : string := String.concat "" (List.repeat "1" 250).

Definition otherToken : AccessToken :=
  mkAccessToken "Y" (Some "S") ["chat:read"] None 1700000000000.

(** An SDK whose calls all succeed, for the bot account. *)
Definition sampleTwitch : Twitch :=
  mkTwitch (fun _ => Resolved "123")
           (fun _ => Resolved (Some sampleToken))
           (fun _ => Resolved (Some (mkHelixUser "123" "papakumo")))
           (fun _ _ => Resolved tt).

(** An SDK whose code exchange fails. *)
Definition failingExchange : Twitch :=
  mkTwitch (fun _ => Rejected (TwitchError "Invalid authorization code"))
           (fun _ => Resolved (Some sampleToken))
           (fun _ => Resolved (Some (mkHelixUser "123" "papakumo")))
           (fun _ _ => Resolved tt).

(** One parameter as the serializer writes it. *)
Definition pair_text (p : string * string) : string :=
  URL.encode (fst p) +:+ "=" +:+ URL.encode (snd p).


(** The world right after the sample authorization request. *)
Definition sampleIssued : World :=
  fst (routeRedirectTwitchAuth sampleServer sampleEntropy initialWorld).

(** A cache directory with a file that is not JSON and a good one. *)
Definition corruptCache : World :=
  mkWorld ∅ [] 0 0
          (<["twitch.111.json" := "{"]>
             (<["twitch.222.json" := JSON.stringify sampleToken]> ∅))
          [] [].

(** ** The auth provider and further vocabulary *)

Module Provider.

(** The options [initTwitch] gives to [new RefreshingAuthProvider]. *)
Record Config := mkConfig {
  clientId : string;
  clientSecret : string;
  redirectUri : string;
  appImpliedScopes : list string;
}.

End Provider.

(** [initTwitch()]: the provider is set up from the server's fields. *)
Definition initTwitch (this : Server) : Provider.Config :=
  {| Provider.clientId := clientId (twitchConfig this);
     Provider.clientSecret := clientSecret (twitchConfig this);
     Provider.redirectUri := fullyQualifiedHostName this +:+ "/twitch/auth-callback";
     Provider.appImpliedScopes := twitchScopes |}.

(** The shape of a key drawn by [routeRedirectTwitchAuth]. *)
Definition is_state_key (s : string) : Prop :=
  String.length s = 40%nat /\ all_hex s = true.

(** The users registered with the auth provider, in the order of the trace. *)
Fixpoint registered (tr : list Effect) : list (string * json) :=
  match tr with
  | [] => []
  | AddUser userId token :: rest => (userId, token) :: registered rest
  | _ :: rest => registered rest
  end.

(** The registry and the timer queue agree: handles are fresh and distinct,
    and every key of the registry is a drawn key whose own timer is still
    set, due no later than the full timeout from now. *)
Definition registry_ok (w : World) : Prop :=
  handles_fresh w
  /\ NoDup (List.map handle (timers w))
  /\ forall n h, twitchAuthState w !! n = Some h ->
       is_state_key n
       /\ exists t, In t (timers w) /\ handle t = h /\ key t = n
                    /\ deadline t <= now w + DEFAULT_TWITCH_AUTH_TIMEOUT.

(** The loader gets past the file [f] of the directory [dir]: a file it
    skips, or one that is there and parses and, unless the value is falsy,
    whose [addUser] does not throw and whose user lookup is not rejected. *)
Definition loadable (tw : Twitch) (dir : gmap string string) (f : string) : Prop :=
  JS.startsWith "twitch." f = true ->
  exists content token,
    dir !! f = Some content
    /\ JSON.parse content = Some token
    /\ (JSON.truthy token = true ->
        forall e,
          addUser tw (nth 1 (JS.split "." f) EmptyString) token <> Rejected e
          /\ getUserById tw (nth 1 (JS.split "." f) EmptyString) <> Rejected e).

(** [target] is the cache file of the user id cut from a listed file that
    the loader does not skip. *)
Definition removal_target (fileNames : list string) (target : string) : Prop :=
  exists f, In f fileNames
            /\ JS.startsWith "twitch." f = true
            /\ target = cacheFileName (nth 1 (JS.split "." f) EmptyString).

(** The event presents [n] or draws it or is a timer set for it. *)
Definition concerns (n : string) (w : World) (ev : Event) : Prop :=
  reissues n ev = true
  \/ carries n ev = true
  \/ exists h t, ev = TimerFires h /\ armed h t w /\ key t = n.

(** ** Paths of the cache files *)

Module Path.

(** The segments of a normalized path, below the working directory: empty
    segments and [.] are dropped, [..] takes away the segment before it.
    [kept] holds the segments so far, the last one first.  [None] when [..]
    leads out of the working directory. *)
Fixpoint normalize (kept : list string) (segments : list string)
  : option (list string) :=
  match segments with
  | [] => Some (rev kept)
  | segment :: rest =>
      if String.eqb segment "" || String.eqb segment "." then normalize kept rest
      else if String.eqb segment ".." then
        match kept with
        | [] => None
        | _ :: kept => normalize kept rest
        end
      else normalize (segment :: kept) rest
  end.

(** [path.join(WORKING_DIRECTORY, rel)] on POSIX, where [/] separates. *)
Definition join (rel : string) : option (list string) :=
  normalize [] (JS.split "/" rel).

End Path.

(** The path that [cacheTwitchAccessToken] and [uncacheTwitchAccessToken]
    compute: [path.join(WORKING_DIRECTORY, `./_cache/twitch.${userId}.json`)]. *)
Definition cachePath (userId : string) : option (list string) :=
  Path.join ("./_cache/" +:+ cacheFileName userId).

(** *** The directory on disk *)

Module Disk.

(** Directories and plain files, each by the segments of its path below the
    working directory. *)
Record t := mk {
  dirs : gset (list string);
  files : gmap (list string) string;
}.

(** The longest name of an entry, in bytes. *)
Definition NAME_MAX : nat := 255.

Definition too_long (segment : string) : bool :=
  (NAME_MAX <? String.length segment)%nat.

(** Node refuses a path with a NUL in it. *)
Definition has_nul (path : list string) : bool :=
  existsb (fun segment => negb (free (ascii_of_N 0) segment)) path.

(** The way down to the directory that holds the last segment of the path:
    every segment before the last has to be a directory.  [None] when it is
    there, else the error of the first segment that is not. *)
Fixpoint to_directory (above path : list string) (whole : string) (d : t)
  : option Exn :=
  match path with
  | [] => None
  | [_] => None
  | segment :: rest =>
      let here := above ++ [segment] in
      if too_long segment then Some (ENAMETOOLONG whole)
      else if bool_decide (is_Some (files d !! here)) then Some (ENOTDIR whole)
      else if negb (bool_decide (here ∈ dirs d)) then Some (ENOENT whole)
      else to_directory here rest whole d
  end.

(** [fs.writeFile(path, content)], completed: the file holds the content.
    The call rejects when Node refuses the path, when the directory of the
    path is not there, when the name is too long, and when the path is a
    directory. *)
Definition writeFile (path : list string) (content : string) (d : t)
  : t * Completion unit :=
  let whole := JS.join "/" path in
  if has_nul path then (d, Rejected (ERR_INVALID_ARG_VALUE whole))
  else match to_directory [] path whole d with
       | Some e => (d, Rejected e)
       | None =>
           if too_long (List.last path "") then (d, Rejected (ENAMETOOLONG whole))
           else if bool_decide (path ∈ dirs d) then (d, Rejected (EISDIR whole))
           else (mk (dirs d) (<[path := content]> (files d)), Resolved tt)
       end.

(** [fs.rm(path)] without options, completed. *)
Definition rm (path : list string) (d : t) : t * Completion unit :=
  let whole := JS.join "/" path in
  if has_nul path then (d, Rejected (ERR_INVALID_ARG_VALUE whole))
  else match to_directory [] path whole d with
       | Some e => (d, Rejected e)
       | None =>
           if too_long (List.last path "") then (d, Rejected (ENAMETOOLONG whole))
           else if bool_decide (path ∈ dirs d) then (d, Rejected (EISDIR whole))
           else match files d !! path with
                | Some _ => (mk (dirs d) (delete path (files d)), Resolved tt)
                | None => (d, Rejected (ENOENT whole))
                end
       end.

End Disk.

(** The entry [f] of the cache directory. *)
Definition cacheEntry (f : string) : list string := ["_cache"; f].

(** The working directory with the cache directory in it, holding the plain
    files [dir]. *)
Definition cacheOnDisk (dir : gmap string string) : Disk.t :=
  Disk.mk {[ []; ["_cache"] ]} (kmap cacheEntry dir).

Module OnDisk.

(** [await this.cacheTwitchAccessToken(userId, accessToken)] on a disk.
    [None] when the path leads out of the working directory. *)
Definition cacheTwitchAccessToken (userId : string) (token : AccessToken) (d : Disk.t)
  : option (Disk.t * Completion unit) :=
  path ← cachePath userId; Some (Disk.writeFile path (JSON.stringify token) d).

(** [await this.uncacheTwitchAccessToken(userId)] on a disk. *)
Definition uncacheTwitchAccessToken (userId : string) (d : Disk.t)
  : option (Disk.t * Completion unit) :=
  path ← cachePath userId; Some (Disk.rm path d).

End OnDisk.

(** A name that an entry of a directory can have: no separator and no NUL,
    at most 255 bytes, and not one of the names with a meaning of their own. *)
Definition is_file_name (s : string) : bool :=
  free "/" s && free (ascii_of_N 0) s
  && (String.length s <=? Disk.NAME_MAX)%nat
  && negb (String.eqb s "") && negb (String.eqb s ".") && negb (String.eqb s "..").

(** [Number.isSafeInteger]: an integer that JavaScript holds exactly. *)
Definition is_safe_integer (z : Z) : bool :=
  Z.abs z <=? 9007199254740991.

(** The number fields of the token are safe integers. *)
Definition safe_numbers (c : AccessToken) : bool :=
  match expiresIn c with
  | Some seconds => is_safe_integer seconds
  | None => true
  end
  && is_safe_integer (obtainmentTimestamp c).

(** ** Proof steps that repeat *)

(** Case analysis on what the Twitch calls of the callback settled to. *)
Ltac callback_cases tw :=
  unfold routeTwitchAuthCallback, send, cacheTwitchAccessToken, createBot;
  repeat match goal with
         | |- context [match ?x with _ => _ end] =>
             match x with
             | addUserForCode tw _ => destruct x as [?|?]
             | getAccessTokenForUser tw _ => destruct x as [[?|]|?]
             | getUserById tw _ => destruct x as [[?|]|?]
             | String.eqb _ _ => destruct x
             end
         end.

(** The rest of the loader's loop only appends to the trace. *)
Ltac loader_continue H :=
  match goal with
  | |- context [loadCachedTwitchAccessTokens_loop _ _ _ ?w1] =>
      let tail := fresh "tail" in
      destruct (H w1) as [tail ->]; simpl; rewrite <- ?app_assoc; by eexists
  end.

(** ** Strings *)

Lemma append_assoc (s t u : string) : (s +:+ t) +:+ u = s +:+ (t +:+ u).
Proof. induction s as [|c s IH]; [done|]. simpl. by rewrite IH. Qed.

Lemma append_empty_r (s : string) : s +:+ "" = s.
Proof. induction s as [|c s IH]; [done|]. simpl. by rewrite IH. Qed.

Lemma length_append (s t : string) :
  String.length (s +:+ t) = (String.length s + String.length t)%nat.
Proof. induction s as [|c s IH]; [done|]. simpl. by rewrite IH. Qed.

(** ** State keys are never property names of [Object.prototype] *)

Lemma hex_of_byte_all_hex b : all_hex (JS.hex_of_byte b) = true.
Proof. destruct b; reflexivity. Qed.

Lemma all_hex_app s t : all_hex (s +:+ t) = all_hex s && all_hex t.
Proof.
  induction s as [|c s IH]; [reflexivity|].
  cbn [String.append all_hex]. rewrite IH. apply andb_assoc.
Qed.

Lemma Buffer_toString_hex_all_hex buf : all_hex (JS.Buffer_toString_hex buf) = true.
Proof.
  induction buf as [|b buf IH]; [reflexivity|].
  cbn [JS.Buffer_toString_hex]. rewrite all_hex_app, hex_of_byte_all_hex, IH.
  reflexivity.
Qed.

Lemma all_hex_not_inherited s :
  all_hex s = true -> s ∉ JS.Object_prototype_keys.
Proof.
  intros Hs Hin. unfold JS.Object_prototype_keys in Hin.
  repeat (apply elem_of_cons in Hin as [->|Hin]; [discriminate Hs|]).
  by apply elem_of_nil in Hin.
Qed.

Lemma freshState_not_inherited entropy :
  freshState entropy ∉ JS.Object_prototype_keys.
Proof. apply all_hex_not_inherited, Buffer_toString_hex_all_hex. Qed.

Lemma freshState_truthy entropy : JS.string_truthy (freshState entropy) = true.
Proof. unfold freshState. simpl. destruct (entropy 0%nat); reflexivity. Qed.

(** Reading a key that is not inherited sees exactly the own properties. *)
Lemma get_truthy_own {V} (obj : gmap string V) k :
  k ∉ JS.Object_prototype_keys ->
  JS.truthy (JS.get obj k) = bool_decide (is_Some (obj !! k)).
Proof.
  intros Hk. unfold JS.get. destruct (obj !! k) as [v|] eqn:E.
  - symmetry. apply bool_decide_eq_true. eauto.
  - rewrite bool_decide_eq_false_2 by done. symmetry.
    apply bool_decide_eq_false. by intros [? ?].
Qed.

(** ** The state registry under the handlers *)

Lemma twitchAuthState_start op w : twitchAuthState (start op w) = twitchAuthState w.
Proof. by destruct op. Qed.

Lemma twitchAuthState_settle_inflight i w :
  twitchAuthState (settle_inflight i w) = twitchAuthState w.
Proof.
  unfold settle_inflight. destruct (inflight w !! i) as [[f c|f]|]; simpl; [done| |done].
  by destruct (cacheDir w !! f).
Qed.

(** A callback whose state is neither an own key nor an inherited one is
    answered 400 and leaves the world as it was, but for the record of the
    answer. *)
Lemma callback_unknown_state this tw code n w :
  n ∉ JS.Object_prototype_keys ->
  twitchAuthState w !! n = None ->
  routeTwitchAuthCallback this tw code (Some n) w = send 400 "Invalid request." w.
Proof.
  intros Hn Habs. unfold routeTwitchAuthCallback.
  destruct code as [c|]; [|done].
  unfold notLegit. rewrite (get_truthy_own _ _ Hn), Habs.
  rewrite bool_decide_eq_false_2 by (by intros [? ?]).
  by rewrite !orb_true_r.
Qed.

(** The callback never adds a key. *)
Lemma callback_keeps_absent this tw code state w k :
  twitchAuthState w !! k = None ->
  twitchAuthState (fst (routeTwitchAuthCallback this tw code state w)) !! k = None.
Proof.
  intros Habs. unfold routeTwitchAuthCallback.
  destruct code as [c|], state as [st|]; try done.
  destruct (notLegit _ _ _); [done|].
  assert (delete st (twitchAuthState w) !! k = None) as Hdel.
  { rewrite lookup_delete. by case_decide. }
  callback_cases tw; simpl; by rewrite ?twitchAuthState_start.
Qed.

(** A callback that is not answered 400 has removed the key it presented. *)
Lemma callback_validated_consumes this tw code st w :
  is400 (Some (snd (routeTwitchAuthCallback this tw code (Some st) w))) = false ->
  twitchAuthState (fst (routeTwitchAuthCallback this tw code (Some st) w)) !! st = None.
Proof.
  unfold routeTwitchAuthCallback.
  destruct code as [c|]; [|done].
  destruct (notLegit _ _ _); [done|]. intros _.
  callback_cases tw; simpl; rewrite ?twitchAuthState_start; simpl;
    apply lookup_delete_eq.
Qed.

(** A pending key presented with a code gets past the guard. *)
Lemma callback_pending_validates this tw code n w :
  pending n w -> JS.string_truthy code = true -> JS.string_truthy n = true ->
  is400 (Some (snd (routeTwitchAuthCallback this tw (Some code) (Some n) w))) = false.
Proof.
  intros [h Hh] Hc Hn. unfold routeTwitchAuthCallback, notLegit, missing, JS.get.
  rewrite Hc, Hn, Hh. simpl.
  callback_cases tw; reflexivity.
Qed.

Lemma expire_keeps_absent st w k :
  twitchAuthState w !! k = None -> twitchAuthState (expire st w) !! k = None.
Proof.
  intros Habs. unfold expire. destruct (JS.truthy _); [|done].
  simpl. rewrite lookup_delete. by case_decide.
Qed.

Lemma fire_keeps_absent h w k :
  twitchAuthState w !! k = None -> twitchAuthState (fire h w) !! k = None.
Proof.
  intros Habs. unfold fire. destruct (List.find _ _) as [t|]; [|done].
  destruct (deadline t <=? now w); [|done]. by apply expire_keeps_absent.
Qed.

Lemma step_keeps_absent this ev w n :
  reissues n ev = false ->
  twitchAuthState w !! n = None ->
  twitchAuthState (fst (step this ev w)) !! n = None.
Proof.
  intros Hre Habs. destruct ev as [entropy|tw code state|h|ms|i]; simpl.
  - unfold reissues in Hre. apply String.eqb_neq in Hre.
    by rewrite lookup_insert_ne.
  - pose proof (callback_keeps_absent this tw code state w n Habs) as H.
    by destruct (routeTwitchAuthCallback this tw code state w).
  - by apply fire_keeps_absent.
  - done.
  - by rewrite twitchAuthState_settle_inflight.
Qed.

Lemma step_rejects_replay this ev w n :
  n ∉ JS.Object_prototype_keys ->
  twitchAuthState w !! n = None ->
  rejects_replay n (ev, snd (step this ev w)).
Proof.
  intros Hn Habs Hc. destruct ev as [entropy|tw code [st|]|h|ms|i]; try done.
  simpl in Hc. apply String.eqb_eq in Hc as ->. simpl.
  by rewrite (callback_unknown_state this tw code n w Hn Habs).
Qed.

(** Once a key is gone it stays gone, and every callback presenting it is
    answered 400, as long as it is not drawn again. *)
Lemma run_rejects_replay this evs : forall w n,
  n ∉ JS.Object_prototype_keys ->
  Forall (fun ev => reissues n ev = false) evs ->
  twitchAuthState w !! n = None ->
  Forall (rejects_replay n) (snd (run this evs w))
  /\ twitchAuthState (fst (run this evs w)) !! n = None.
Proof.
  induction evs as [|ev evs IH]; intros w n Hn Hre Habs; [by split|].
  apply Forall_cons in Hre as [Hev Hre]. simpl.
  pose proof (step_keeps_absent this ev w n Hev Habs) as Hstep.
  pose proof (step_rejects_replay this ev w n Hn Habs) as Hrej.
  destruct (step this ev w) as [w1 o]. simpl in *.
  destruct (IH w1 n Hn Hre Hstep) as [Hall Hfin].
  destruct (run this evs w1) as [w2 history]. simpl in *.
  split; [by constructor|done].
Qed.

Lemma step_validated_consumes this ev w n :
  validated n (ev, snd (step this ev w)) = true ->
  twitchAuthState (fst (step this ev w)) !! n = None.
Proof.
  unfold validated. simpl. intros [Hc Hv]%andb_true_iff.
  destruct ev as [entropy|tw code [st|]|h|ms|i]; try done.
  simpl in Hc. apply String.eqb_eq in Hc as ->. simpl in *.
  apply negb_true_iff in Hv.
  pose proof (callback_validated_consumes this tw code n w) as H.
  destruct (routeTwitchAuthCallback this tw code (Some n) w) as [w1 o].
  by apply H.
Qed.

Lemma run_validated_once this evs : forall w n,
  n ∉ JS.Object_prototype_keys ->
  Forall (fun ev => reissues n ev = false) evs ->
  (length (List.filter (validated n) (snd (run this evs w))) <= 1)%nat.
Proof.
  induction evs as [|ev evs IH]; intros w n Hn Hre; [simpl; lia|].
  apply Forall_cons in Hre as [Hev Hre]. simpl.
  pose proof (step_validated_consumes this ev w n) as Hcons.
  destruct (step this ev w) as [w1 o]. simpl in Hcons.
  pose proof (IH w1 n Hn Hre) as Hle.
  pose proof (run_rejects_replay this evs w1 n Hn Hre) as Hrej.
  destruct (run this evs w1) as [w2 history]. simpl in *.
  destruct (validated n (ev, o)) eqn:Hv; [|done].
  destruct (Hrej (Hcons eq_refl)) as [Hall _].
  assert (List.filter (validated n) history = []) as ->; [|simpl; lia].
  clear -Hall. induction Hall as [|[e o'] l Hx _ IHl]; [done|].
  simpl. unfold validated at 1. simpl.
  destruct (carries n e) eqn:Hc; [|done].
  unfold rejects_replay in Hx. simpl in Hx. by rewrite (Hx Hc).
Qed.

Lemma run_replay_after_validation this evs : forall w n h1 entry h2,
  n ∉ JS.Object_prototype_keys ->
  Forall (fun ev => reissues n ev = false) evs ->
  snd (run this evs w) = h1 ++ entry :: h2 ->
  validated n entry = true ->
  Forall (rejects_replay n) h2.
Proof.
  induction evs as [|ev evs IH]; intros w n h1 entry h2 Hn Hre Hsplit Hv.
  { by destruct h1. }
  apply Forall_cons in Hre as [Hev Hre]. simpl in Hsplit.
  pose proof (step_validated_consumes this ev w n) as Hcons.
  destruct (step this ev w) as [w1 o]. simpl in Hcons.
  pose proof (run_rejects_replay this evs w1 n Hn Hre) as Hrej.
  specialize (IH w1 n).
  destruct (run this evs w1) as [w2 history]. simpl in *.
  destruct h1 as [|x h1]; simpl in Hsplit; injection Hsplit as <- ->.
  - by destruct (Hrej (Hcons Hv)).
  - by eapply IH.
Qed.

(** ** Timers *)

Lemma find_app_found {A} (f : A -> bool) l l' x :
  List.find f l = Some x -> List.find f (l ++ l') = Some x.
Proof.
  induction l as [|a l IH]; [done|]. simpl.
  destruct (f a); [done|]. apply IH.
Qed.

Lemma find_filter_keeps {A} (f g : A -> bool) l :
  (forall x, f x = true -> g x = true) ->
  List.find f (List.filter g l) = List.find f l.
Proof.
  intros Hfg. induction l as [|a l IH]; [done|]. simpl.
  destruct (f a) eqn:Hf.
  - by rewrite (Hfg a Hf); simpl; rewrite Hf.
  - destruct (g a); simpl; by rewrite ?Hf.
Qed.

Lemma timers_start op w : timers (start op w) = timers w.
Proof. by destruct op. Qed.

Lemma timers_callback this tw code state w :
  timers (fst (routeTwitchAuthCallback this tw code state w)) = timers w.
Proof.
  unfold routeTwitchAuthCallback.
  destruct code as [c|], state as [st|]; try done.
  destruct (notLegit _ _ _); [done|].
  callback_cases tw; simpl; by rewrite ?timers_start.
Qed.

Lemma timers_settle_inflight i w : timers (settle_inflight i w) = timers w.
Proof.
  unfold settle_inflight. destruct (inflight w !! i) as [[f c|f]|]; simpl; [done| |done].
  by destruct (cacheDir w !! f).
Qed.

Lemma timers_expire st w : timers (expire st w) = timers w.
Proof. unfold expire. by destruct (JS.truthy _). Qed.

(** A waiting timer keeps waiting until it is the one that fires. *)
Lemma step_keeps_armed this ev w h t :
  fires h ev = false -> armed h t w -> armed h t (fst (step this ev w)).
Proof.
  unfold armed. intros Hev Harmed.
  destruct ev as [entropy|tw code state|h'|ms|i]; simpl.
  - by apply find_app_found.
  - pose proof (timers_callback this tw code state w) as H.
    destruct (routeTwitchAuthCallback this tw code state w). simpl in *. by rewrite H.
  - unfold fire.
    destruct (List.find (fun t0 => Nat.eqb (handle t0) h') (timers w)) as [t'|]; [|done].
    destruct (deadline t' <=? now w); [|done].
    rewrite timers_expire. simpl. rewrite find_filter_keeps; [done|].
    intros x Hx. simpl in Hev. apply Nat.eqb_eq in Hx. rewrite Hx.
    apply negb_true_iff. by rewrite Nat.eqb_sym.
  - done.
  - by rewrite timers_settle_inflight.
Qed.

Lemma run_keeps_armed this evs : forall w h t,
  Forall (fun ev => fires h ev = false) evs ->
  armed h t w -> armed h t (fst (run this evs w)).
Proof.
  induction evs as [|ev evs IH]; intros w h t Hev Harmed; [done|].
  apply Forall_cons in Hev as [Hev Hevs]. simpl.
  pose proof (step_keeps_armed this ev w h t Hev Harmed) as Hstep.
  destruct (step this ev w) as [w1 o]. simpl in Hstep.
  specialize (IH w1 h t Hevs Hstep).
  by destruct (run this evs w1).
Qed.

(** The timer set by an authorization request is waiting right after it. *)
Lemma redirect_arms this entropy w :
  handles_fresh w ->
  armed (nextHandle w)
        (mkTimer (nextHandle w) (now w + DEFAULT_TWITCH_AUTH_TIMEOUT) (freshState entropy))
        (fst (routeRedirectTwitchAuth this entropy w)).
Proof.
  unfold handles_fresh, armed. simpl. generalize (nextHandle w) as h.
  intros h Hfresh. induction Hfresh as [|t l Ht _ IH]; simpl.
  - by rewrite Nat.eqb_refl.
  - destruct (Nat.eqb_spec (handle t) h); [lia|done].
Qed.

(** What the timer callback does to a key that is not an inherited name. *)
Lemma expire_deletes n w :
  n ∉ JS.Object_prototype_keys ->
  twitchAuthState (expire n w) = delete n (twitchAuthState w).
Proof.
  intros Hn. unfold expire. rewrite (get_truthy_own _ _ Hn).
  case_bool_decide as Hp; [done|].
  symmetry. apply delete_id. by apply eq_None_not_Some.
Qed.

Lemma fire_armed_due h t w :
  armed h t w -> deadline t <= now w ->
  key t ∉ JS.Object_prototype_keys ->
  twitchAuthState (fire h w) = delete (key t) (twitchAuthState w).
Proof.
  unfold armed, fire. intros -> Hdue Hk.
  rewrite (proj2 (Z.leb_le _ _) Hdue). by rewrite expire_deletes.
Qed.

Lemma fire_armed_early h t w :
  armed h t w -> now w < deadline t -> fire h w = w.
Proof.
  unfold armed, fire. intros -> Hearly.
  by rewrite (proj2 (Z.leb_gt _ _) Hearly).
Qed.

(** *** Handles stay fresh *)

Lemma nextHandle_start op w : nextHandle (start op w) = nextHandle w.
Proof. by destruct op. Qed.

Lemma nextHandle_callback this tw code state w :
  nextHandle (fst (routeTwitchAuthCallback this tw code state w)) = nextHandle w.
Proof.
  unfold routeTwitchAuthCallback.
  destruct code as [c|], state as [st|]; try done.
  destruct (notLegit _ _ _); [done|].
  callback_cases tw; simpl; by rewrite ?nextHandle_start.
Qed.

Lemma nextHandle_settle_inflight i w :
  nextHandle (settle_inflight i w) = nextHandle w.
Proof.
  unfold settle_inflight. destruct (inflight w !! i) as [[f c|f]|]; simpl; [done| |done].
  by destruct (cacheDir w !! f).
Qed.

Lemma nextHandle_expire st w : nextHandle (expire st w) = nextHandle w.
Proof. unfold expire. by destruct (JS.truthy _). Qed.

Lemma step_handles_fresh this ev w :
  handles_fresh w -> handles_fresh (fst (step this ev w)).
Proof.
  unfold handles_fresh. intros Hfresh.
  destruct ev as [entropy|tw code state|h|ms|i]; simpl.
  - apply Forall_app. split.
    + eapply Forall_impl; [exact Hfresh|]. simpl. intros t Ht. lia.
    + constructor; [simpl; lia|constructor].
  - pose proof (timers_callback this tw code state w) as Ht.
    pose proof (nextHandle_callback this tw code state w) as Hn.
    destruct (routeTwitchAuthCallback this tw code state w). simpl in *.
    by rewrite Ht, Hn.
  - unfold fire.
    destruct (List.find _ (timers w)) as [t|]; [|done].
    destruct (deadline t <=? now w); [|done].
    rewrite timers_expire, nextHandle_expire. simpl.
    apply Forall_forall. intros x Hx%list_elem_of_In%filter_In.
    rewrite Forall_forall in Hfresh. apply Hfresh, list_elem_of_In, Hx.
  - done.
  - by rewrite timers_settle_inflight, nextHandle_settle_inflight.
Qed.

(** Every world the server can reach from its start has fresh handles. *)
Lemma run_handles_fresh this evs : forall w,
  handles_fresh w -> handles_fresh (fst (run this evs w)).
Proof.
  induction evs as [|ev evs IH]; intros w Hfresh; [done|]. simpl.
  pose proof (step_handles_fresh this ev w Hfresh) as Hstep.
  destruct (step this ev w) as [w1 o]. simpl in Hstep.
  specialize (IH w1 Hstep). by destruct (run this evs w1).
Qed.

(** ** The state key is good for one callback *)

(** C1.  After [GET /twitch/auth] has issued the state key [n], whatever
    happens next (callbacks, timers, other authorization requests that do
    not draw [n] again): [n] is pending; at most one callback presenting [n]
    gets past the guard; once one did, every later callback presenting [n]
    is answered 400 "Invalid request."; and a callback that presents a
    pending [n] with a code does get past the guard and deletes the key. *)
Theorem nonce_validates_at_most_once (this : Server) (entropy : nat -> Byte.byte)
    (w : World) (evs : list Event) :
  let n := freshState entropy in
  let w1 := fst (routeRedirectTwitchAuth this entropy w) in
  let history := snd (run this evs w1) in
  Forall (fun ev => reissues n ev = false) evs ->
  pending n w1
  /\ (length (List.filter (validated n) history) <= 1)%nat
  /\ (forall before entry after,
        history = before ++ entry :: after ->
        validated n entry = true ->
        Forall (rejects_replay n) after)
  /\ (forall tw code w',
        pending n w' -> JS.string_truthy code = true ->
        let result := routeTwitchAuthCallback this tw (Some code) (Some n) w' in
        is400 (Some (snd result)) = false /\ ~ pending n (fst result)).
Proof.
  intros n w1 history Hre.
  pose proof (freshState_not_inherited entropy) as Hn. fold n in Hn.
  repeat split.
  - unfold pending, w1. simpl. fold n. rewrite lookup_insert_eq. eauto.
  - by apply run_validated_once.
  - intros before entry after Hsplit Hv.
    by eapply run_replay_after_validation.
  - apply callback_pending_validates; [done..|]. apply freshState_truthy.
  - intros [h Hh].
    match goal with
    | Hp : pending n w', Hc : JS.string_truthy code = true |- _ =>
        pose proof (callback_pending_validates this tw code n w' Hp Hc
                      (freshState_truthy entropy)) as Hv
    end.
    apply callback_validated_consumes in Hv. by rewrite Hv in Hh.
Qed.

Lemma nonce_validates_at_most_once_witness :
  let n := freshState sampleEntropy in
  let evs := [ GetAuthCallback sampleTwitch (Some "abc") (Some n);
               GetAuthCallback sampleTwitch (Some "abc") (Some n) ] in
  Forall (fun ev => reissues n ev = false) evs
  /\ (length (List.filter (validated n)
        (snd (run sampleServer evs
                (fst (routeRedirectTwitchAuth sampleServer sampleEntropy initialWorld)))))
      <= 1)%nat.
Proof.
  intros n evs.
  assert (Forall (fun ev => reissues n ev = false) evs) as Hre
    by (repeat constructor).
  split; [exact Hre|].
  exact (proj1 (proj2 (nonce_validates_at_most_once
                         sampleServer sampleEntropy initialWorld evs Hre))).
Defined.

(** Every inherited name gets past the guard, pending or not. *)
Lemma callback_inherited_key_passes code k w :
  JS.string_truthy code = true ->
  k ∈ JS.Object_prototype_keys ->
  notLegit (Some code) (Some k) w = false.
Proof.
  intros Hc Hk. unfold notLegit, missing. rewrite Hc.
  assert (JS.string_truthy k = true) as ->.
  { unfold JS.Object_prototype_keys in Hk.
    repeat (apply elem_of_cons in Hk as [->|Hk]; [reflexivity|]).
    by apply elem_of_nil in Hk. }
  unfold JS.get. destruct (twitchAuthState w !! k); [done|].
  by rewrite bool_decide_eq_true_2.
Qed.

(** C6, at the failing input.  No state key is pending, and the callback
    [GET /twitch/auth-callback?code=abc&state=constructor] is not answered
    400: [this.twitchAuthState["constructor"]] is the inherited
    [Object.prototype.constructor], which is truthy, so the handler goes on
    to exchange the code and completes the whole flow. *)
Example callback_inherited_state_reaches_exchange :
  twitchAuthState initialWorld = ∅
  /\ notLegit (Some "abc") (Some "constructor") initialWorld = false
  /\ snd (routeTwitchAuthCallback sampleServer sampleTwitch
            (Some "abc") (Some "constructor") initialWorld)
     = Sent (mkResponse 200 [] "welcome papakumo!")
  /\ trace (fst (routeTwitchAuthCallback sampleServer sampleTwitch
                   (Some "abc") (Some "constructor") initialWorld))
     = [ AddUserForCode "abc"; GetAccessTokenForUser "123"; GetUserById "123";
         WriteFileStarted "twitch.123.json" (JSON.stringify sampleToken);
         CreateBot (mkHelixUser "123" "papakumo");
         Send 200 "welcome papakumo!" ].
Proof. repeat split; vm_compute; reflexivity. Qed.

(** ** Expiry *)

(** C7.  The authorization request sets a timer for its state key [n], due
    [DEFAULT_TWITCH_AUTH_TIMEOUT] = 5 minutes later.  Until the timer has
    fired it stays set; it does nothing before it is due; when it fires after
    that, [n] is gone from the registry (whether or not it was still there)
    and every later callback presenting [n] is answered 400; and when [n] was
    consumed before, the registry is left as it is. *)
Theorem nonce_expires_after_timeout (this : Server) (entropy : nat -> Byte.byte)
    (w : World) (evs1 evs2 : list Event) :
  let n := freshState entropy in
  let h := nextHandle w in
  let w1 := fst (routeRedirectTwitchAuth this entropy w) in
  let w' := fst (run this evs1 w1) in
  handles_fresh w ->
  Forall (fun ev => reissues n ev = false) evs2 ->
  Forall (fun ev => fires h ev = false) evs1 ->
  DEFAULT_TWITCH_AUTH_TIMEOUT = 300000
  /\ armed h (mkTimer h (now w + 300000) n) w'
  /\ (now w' < now w + 300000 -> fire h w' = w')
  /\ (now w + 300000 <= now w' ->
        twitchAuthState (fire h w') = delete n (twitchAuthState w')
        /\ ~ pending n (fire h w')
        /\ Forall (rejects_replay n) (snd (run this evs2 (fire h w'))))
  /\ (~ pending n w' -> twitchAuthState (fire h w') = twitchAuthState w').
Proof.
  intros n h w1 w' Hfresh Hre Hfire.
  pose proof (freshState_not_inherited entropy) as Hn. fold n in Hn.
  assert (armed h (mkTimer h (now w + 300000) n) w') as Harmed.
  { apply run_keeps_armed; [done|]. by apply redirect_arms. }
  split; [reflexivity|]. split; [done|]. split; [|split].
  - intros Hearly. by eapply fire_armed_early.
  - intros Hdue.
    pose proof (fire_armed_due h _ w' Harmed Hdue Hn) as Hdel. simpl in Hdel.
    assert (twitchAuthState (fire h w') !! n = None) as Habs
      by (rewrite Hdel; apply lookup_delete_eq).
    split; [done|]. split.
    + unfold pending. rewrite Habs. by intros [? ?].
    + by apply run_rejects_replay.
  - intros Hgone. unfold pending in Hgone. apply eq_None_not_Some in Hgone.
    destruct (Z.lt_ge_cases (now w') (now w + 300000)) as [Hearly|Hdue].
    + by rewrite (fire_armed_early h _ w' Harmed Hearly).
    + rewrite (fire_armed_due h _ w' Harmed Hdue Hn). simpl. by apply delete_id.
Qed.

Lemma nonce_expires_after_timeout_witness :
  let n := freshState sampleEntropy in
  let w1 := fst (routeRedirectTwitchAuth sampleServer sampleEntropy initialWorld) in
  let evs1 := [ Elapse 300000 ] in
  let evs2 := [ GetAuthCallback sampleTwitch (Some "abc") (Some n) ] in
  handles_fresh initialWorld
  /\ Forall (fun ev => reissues n ev = false) evs2
  /\ Forall (fun ev => fires 0 ev = false) evs1
  /\ armed 0%nat (mkTimer 0 (0 + 300000) n) (fst (run sampleServer evs1 w1)).
Proof.
  intros n w1 evs1 evs2.
  assert (handles_fresh initialWorld) as H1 by constructor.
  assert (Forall (fun ev => reissues n ev = false) evs2) as H2 by (repeat constructor).
  assert (Forall (fun ev => fires 0 ev = false) evs1) as H3 by (repeat constructor).
  split; [exact H1|]. split; [exact H2|]. split; [exact H3|].
  exact (proj1 (proj2 (nonce_expires_after_timeout
                         sampleServer sampleEntropy initialWorld evs1 evs2 H1 H2 H3))).
Defined.

(** ** The query of the authorization URL reads back as it was written *)

Lemma free_app c s t : free c (s +:+ t) = free c s && free c t.
Proof.
  induction s as [|a s IH]; [done|]. simpl. rewrite IH. apply andb_assoc.
Qed.

Lemma encode_byte_free a :
  free "&" (URL.encode_byte a) = true /\ free "=" (URL.encode_byte a) = true.
Proof. destruct a as [[] [] [] [] [] [] [] []]; split; reflexivity. Qed.

Lemma encode_free s : free "&" (URL.encode s) = true /\ free "=" (URL.encode s) = true.
Proof.
  induction s as [|a s [IH1 IH2]]; [done|]. simpl.
  rewrite !free_app, IH1, IH2.
  destruct (encode_byte_free a) as [-> ->]. done.
Qed.

Lemma decode_encode_byte a rest :
  URL.decode (URL.encode_byte a +:+ rest) = String a (URL.decode rest).
Proof. destruct a as [[] [] [] [] [] [] [] []]; reflexivity. Qed.

Lemma decode_encode s : URL.decode (URL.encode s) = s.
Proof.
  induction s as [|a s IH]; [done|]. simpl.
  by rewrite decode_encode_byte, IH.
Qed.

Lemma cut_free c s rest :
  free c s = true -> URL.cut c (s +:+ String c rest) = (s, Some rest).
Proof.
  induction s as [|a s IH]; simpl.
  - by rewrite Ascii.eqb_refl.
  - intros [Ha Hs]%andb_true_iff. apply negb_true_iff in Ha.
    by rewrite Ha, (IH Hs).
Qed.

Lemma cut_free_end c s : free c s = true -> URL.cut c s = (s, None).
Proof.
  induction s as [|a s IH]; [done|]. simpl.
  intros [Ha Hs]%andb_true_iff. apply negb_true_iff in Ha.
  by rewrite Ha, (IH Hs).
Qed.

Lemma split_free c s rest :
  free c s = true -> JS.split c (s +:+ String c rest) = s :: JS.split c rest.
Proof.
  induction s as [|a s IH]; simpl.
  - by rewrite Ascii.eqb_refl.
  - intros [Ha Hs]%andb_true_iff. apply negb_true_iff in Ha.
    by rewrite Ha, (IH Hs).
Qed.

Lemma split_free_end c s : free c s = true -> JS.split c s = [s].
Proof.
  induction s as [|a s IH]; [done|]. simpl.
  intros [Ha Hs]%andb_true_iff. apply negb_true_iff in Ha.
  by rewrite Ha, (IH Hs).
Qed.

Lemma pair_text_free p : free "&" (pair_text p) = true.
Proof.
  unfold pair_text. rewrite !free_app.
  destruct (encode_free (fst p)) as [-> _], (encode_free (snd p)) as [-> _]. done.
Qed.

Lemma pair_text_truthy p : JS.string_truthy (pair_text p) = true.
Proof. unfold pair_text. by destruct (URL.encode (fst p)). Qed.

Lemma parse_pair_text p : URL.parse_pair (pair_text p) = p.
Proof.
  unfold URL.parse_pair, pair_text. simpl.
  rewrite cut_free by apply encode_free. simpl.
  rewrite !decode_encode. by destruct p.
Qed.

Lemma split_serialize p ps :
  JS.split "&" (URL.serialize (p :: ps)) = List.map pair_text (p :: ps).
Proof.
  unfold URL.serialize. fold pair_text.
  revert p. induction ps as [|q ps IH]; intros p.
  - simpl. apply split_free_end, pair_text_free.
  - change (JS.join "&" (List.map pair_text (p :: q :: ps)))
      with (pair_text p +:+ String "&" (JS.join "&" (List.map pair_text (q :: ps)))).
    rewrite split_free by apply pair_text_free. by rewrite IH.
Qed.

(** Reading a serialized query gives the parameters back. *)
Lemma parse_query_serialize ps : URL.parse_query (URL.serialize ps) = ps.
Proof.
  destruct ps as [|p ps]; [done|].
  unfold URL.parse_query. rewrite split_serialize.
  generalize (p :: ps). clear. intros l.
  induction l as [|q l IH]; [done|].
  cbn [List.map List.filter]. rewrite pair_text_truthy.
  cbn [List.map]. by rewrite parse_pair_text, IH.
Qed.

Lemma parse_toString address ps :
  free "?" address = true -> URL.parse (URL.toString address ps) = (address, ps).
Proof.
  intros Hfree. unfold URL.parse, URL.toString. simpl.
  rewrite cut_free by done. simpl. by rewrite parse_query_serialize.
Qed.

(** C9.  Every [GET /twitch/auth] is answered 302 with a [Location] whose
    address is the Twitch authorization endpoint and whose query decodes to
    the configured client id, the callback address
    [fullyQualifiedHostName + "/twitch/auth-callback"], the response type,
    the five fixed scopes, and the state key just drawn; the world changes
    only by that key, registered with its timer of 5 minutes. *)
Theorem auth_redirect_location (this : Server) (entropy : nat -> Byte.byte) (w : World) :
  let state := freshState entropy in
  let w' := fst (routeRedirectTwitchAuth this entropy w) in
  exists location,
    snd (routeRedirectTwitchAuth this entropy w)
      = Sent (mkResponse 302 [("Location", location)] "")
    /\ URL.parse location
       = ("https://id.twitch.tv/oauth2/authorize",
          [ ("client_id", clientId (twitchConfig this));
            ("redirect_uri", fullyQualifiedHostName this +:+ "/twitch/auth-callback");
            ("response_type", "code");
            ("scope", "chat:read chat:edit channel:read:redemptions channel:manage:redemptions moderator:read:followers");
            ("state", state) ])
    /\ twitchAuthState w' = <[state := nextHandle w]> (twitchAuthState w)
    /\ timers w' = timers w ++ [mkTimer (nextHandle w) (now w + 300000) state]
    /\ nextHandle w' = S (nextHandle w)
    /\ now w' = now w
    /\ cacheDir w' = cacheDir w
    /\ inflight w' = inflight w
    /\ trace w' = trace w ++ [SetTimeout (nextHandle w) state 300000; Send 302 ""].
Proof.
  intros state w'. eexists. split; [reflexivity|].
  split; [by apply parse_toString|].
  unfold w'. simpl. by rewrite <- app_assoc.
Qed.

(** ** What [JSON.stringify] writes, [JSON.parse] reads back *)

(** One written character reads back as one piece that stands for it. *)
Lemma parse_pieces_quote_char c tail :
  exists p,
    (forall ps r, JSON.parse_pieces tail = Some (ps, r) ->
       JSON.parse_pieces (JSON.quote_char c +:+ tail) = Some (p :: ps, r))
    /\ (forall ps, JSON.assemble (p :: ps) = String c (JSON.assemble ps)).
Proof.
  destruct c as [[] [] [] [] [] [] [] []];
    (eexists; split;
     [ intros ps r H; simpl; rewrite H; reflexivity
     | intros [|[] ?]; reflexivity ]).
Qed.

Lemma parse_string_quote_chars s rest :
  JSON.parse_string (JSON.quote_chars s +:+ String JSON.dquote rest) = Some (s, rest).
Proof.
  unfold JSON.parse_string.
  enough (exists ps, JSON.parse_pieces (JSON.quote_chars s +:+ String JSON.dquote rest)
                     = Some (ps, rest) /\ JSON.assemble ps = s) as (ps & -> & <-) by done.
  induction s as [|c s (ps & Hps & Has)].
  - by exists [].
  - destruct (parse_pieces_quote_char c
                (JSON.quote_chars s +:+ String JSON.dquote rest)) as (p & Hp & Hc).
    exists (p :: ps). split.
    + simpl. rewrite append_assoc. by apply Hp.
    + by rewrite Hc, Has.
Qed.

Lemma span_digits_end rest :
  ends_number rest = true -> JSON.span_digits rest = (EmptyString, rest).
Proof.
  destruct rest as [|c rest]; [done|]. simpl.
  destruct (JSON.is_digit c); [done|]. done.
Qed.

Lemma span_digits_uint d rest :
  ends_number rest = true ->
  JSON.span_digits (NilEmpty.string_of_uint d +:+ rest)
  = (NilEmpty.string_of_uint d, rest).
Proof.
  intros Hrest. induction d; simpl; rewrite ?IHd; try done.
  by apply span_digits_end.
Qed.

(** The decimal form of a number has no leading zero. *)
Lemma to_uint_head n :
  n <> 0%N ->
  exists c tail, JS.Number_toString n = String c tail
                 /\ JSON.is_digit c = true /\ Ascii.eqb c "0" = false.
Proof.
  intros Hn. unfold JS.Number_toString.
  assert (Decimal.unorm (N.to_uint n) = N.to_uint n) as Hnorm.
  { rewrite <- (DecimalN.Unsigned.to_of (N.to_uint n)).
    by rewrite DecimalN.Unsigned.of_to. }
  destruct (N.to_uint n) as [|d|d|d|d|d|d|d|d|d|d] eqn:E;
    try (eexists _, _; split; [reflexivity|]; split; reflexivity).
  - discriminate Hnorm.
  - exfalso. rewrite DecimalFacts.unorm_D0 in Hnorm.
    assert (d = Decimal.Nil \/ d <> Decimal.Nil) as [->|Hd]
      by (destruct d; [by left|by right..]).
    + apply Hn. rewrite <- (DecimalN.Unsigned.of_to n), E. reflexivity.
    + pose proof (DecimalFacts.nb_digits_unorm d Hd) as Hle.
      rewrite Hnorm in Hle. simpl in Hle. lia.
Qed.

Lemma digits_value_toString n : JSON.digits_value (JS.Number_toString n) = Some n.
Proof.
  unfold JSON.digits_value, JS.Number_toString.
  rewrite NilEmpty.usu. simpl. by rewrite DecimalN.Unsigned.of_to.
Qed.

Lemma parse_fraction_end rest :
  ends_number rest = true -> JSON.parse_fraction rest = Some (EmptyString, rest).
Proof.
  destruct rest as [|c rest]; [done|]. simpl.
  destruct (Ascii.eqb c "."); [|done]. by rewrite !orb_true_r.
Qed.

Lemma parse_exponent_end rest :
  ends_number rest = true -> JSON.parse_exponent rest = Some (0, rest).
Proof.
  destruct rest as [|c rest]; [done|]. simpl.
  destruct (Ascii.eqb c "e"), (Ascii.eqb c "E"); simpl;
    rewrite ?orb_true_r; done.
Qed.

(** The digits of a number read back as that number, with its sign. *)
Lemma parse_magnitude_toString negative n rest :
  ends_number rest = true ->
  JSON.parse_magnitude negative (JS.Number_toString n +:+ rest)
  = Some (JNumber (if negative then - Z.of_N n else Z.of_N n) 0, rest).
Proof.
  intros Hrest. unfold JSON.parse_magnitude.
  destruct (N.eq_dec n 0%N) as [->|Hn].
  - simpl. rewrite parse_fraction_end by done. simpl.
    rewrite parse_exponent_end by done. by destruct negative.
  - destruct (to_uint_head n Hn) as (c & tail & E & Hd & Hz).
    pose proof (span_digits_uint (N.to_uint n) rest Hrest) as Hspan.
    pose proof (digits_value_toString n) as Hval.
    unfold JS.Number_toString in *. rewrite E in *.
    change (String c tail +:+ rest) with (String c (tail +:+ rest)) in *.
    simpl in Hspan |- *. rewrite Hd in Hspan. rewrite Hz, Hd, Hspan. simpl.
    rewrite parse_fraction_end by done. simpl.
    rewrite parse_exponent_end by done. simpl.
    rewrite append_empty_r, Hval. reflexivity.
Qed.

Lemma parse_number_integer z rest :
  ends_number rest = true ->
  JSON.parse_number (JSON.stringify_integer z +:+ rest) = Some (JNumber z 0, rest).
Proof.
  intros Hrest. unfold JSON.stringify_integer.
  destruct (Z.ltb_spec z 0) as [Hneg|Hpos].
  - simpl. rewrite parse_magnitude_toString by done.
    do 2 f_equal. f_equal. lia.
  - pose proof (parse_magnitude_toString false (Z.abs_N z) rest Hrest) as H.
    assert (Z.of_N (Z.abs_N z) = z) as Hz by lia. rewrite Hz in H.
    simpl. unfold JSON.parse_number.
    destruct (N.eq_dec (Z.abs_N z) 0%N) as [E|Hn].
    + rewrite E in *. exact H.
    + destruct (to_uint_head _ Hn) as (c & tail & E & Hd & _).
      rewrite E in *. simpl.
      destruct (Ascii.eqb c "-") eqn:Hminus; [|exact H].
      apply Ascii.eqb_eq in Hminus. subst c. discriminate Hd.
Qed.

(** *** Values *)

Lemma parse_elements_eq f s :
  JSON.parse_elements (S f) s
  = '(v, r) ← JSON.parse_value f s;
    match JSON.skip_ws r with
    | String c r' =>
        if Ascii.eqb c "," then
          '(vs, r'') ← JSON.parse_elements f r'; Some (v :: vs, r'')
        else if Ascii.eqb c "]" then Some ([v], r')
        else None
    | EmptyString => None
    end.
Proof. reflexivity. Qed.

Lemma parse_members_eq f s :
  JSON.parse_members (S f) s
  = match JSON.skip_ws s with
    | String q r =>
        if Ascii.eqb q JSON.dquote then
          '(k, r) ← JSON.parse_string r;
          match JSON.skip_ws r with
          | String colon r =>
              if Ascii.eqb colon ":" then
                '(v, r) ← JSON.parse_value f r;
                match JSON.skip_ws r with
                | String c r' =>
                    if Ascii.eqb c "," then
                      '(ms, r'') ← JSON.parse_members f r'; Some ((k, v) :: ms, r'')
                    else if Ascii.eqb c "}" then Some ([(k, v)], r')
                    else None
                | EmptyString => None
                end
              else None
          | EmptyString => None
          end
        else None
    | EmptyString => None
    end.
Proof. reflexivity. Qed.

Lemma quote_append s rest :
  JSON.quote s +:+ rest
  = String JSON.dquote (JSON.quote_chars s +:+ String JSON.dquote rest).
Proof. unfold JSON.quote. simpl. by rewrite append_assoc. Qed.

Lemma parse_value_string f s rest :
  JSON.parse_value (S f) (JSON.quote s +:+ rest) = Some (JString s, rest).
Proof.
  rewrite quote_append. simpl. by rewrite parse_string_quote_chars.
Qed.

Lemma parse_value_null f rest :
  JSON.parse_value (S f) ("null" +:+ rest) = Some (JNull, rest).
Proof. reflexivity. Qed.

Lemma parse_value_number f c tail :
  JSON.is_digit c = true \/ c = "-"%char ->
  JSON.parse_value (S f) (String c tail) = JSON.parse_number (String c tail).
Proof.
  destruct c as [[] [] [] [] [] [] [] []]; intros [H|H];
    try discriminate H; reflexivity.
Qed.

Lemma stringify_integer_head z :
  exists c tail, JSON.stringify_integer z = String c tail
                 /\ (JSON.is_digit c = true \/ c = "-"%char).
Proof.
  unfold JSON.stringify_integer. destruct (z <? 0).
  - eexists _, _. split; [reflexivity|by right].
  - simpl. destruct (N.eq_dec (Z.abs_N z) 0%N) as [->|Hn].
    + eexists _, _. split; [reflexivity|by left].
    + destruct (to_uint_head _ Hn) as (c & tail & -> & Hd & _). eauto.
Qed.

Lemma parse_value_integer f z rest :
  ends_number rest = true ->
  JSON.parse_value (S f) (JSON.stringify_integer z +:+ rest) = Some (JNumber z 0, rest).
Proof.
  intros Hrest. rewrite <- (parse_number_integer z rest Hrest).
  destruct (stringify_integer_head z) as (c & tail & -> & Hc).
  by apply parse_value_number.
Qed.

Lemma parse_elements_strings l : forall f rest,
  l <> [] -> (length l < f)%nat ->
  JSON.parse_elements f (JS.join "," (List.map JSON.quote l) +:+ String "]" rest)
  = Some (List.map JString l, rest).
Proof.
  induction l as [|x l IH]; intros f rest Hl Hf; [done|].
  destruct f as [|[|f]]; [simpl in Hf; lia..|].
  rewrite parse_elements_eq.
  destruct l as [|y l].
  - cbn [List.map JS.join]. rewrite parse_value_string. reflexivity.
  - change (JS.join "," (List.map JSON.quote (x :: y :: l)))
      with (JSON.quote x +:+ "," +:+ JS.join "," (List.map JSON.quote (y :: l))).
    rewrite !append_assoc. rewrite parse_value_string.
    cbn [mbind option_bind]. simpl JSON.skip_ws. cbn iota.
    change (Ascii.eqb "," ",") with true. cbn iota.
    rewrite IH; [reflexivity|done|simpl in *; lia].
Qed.

Lemma parse_value_array l f rest :
  (length l < f)%nat ->
  JSON.parse_value (S f) (JSON.stringify_array (List.map JSON.quote l) +:+ rest)
  = Some (JArray (List.map JString l), rest).
Proof.
  intros Hf. unfold JSON.stringify_array.
  destruct l as [|x l]; [reflexivity|].
  rewrite !append_assoc.
  change ("[" +:+ ?s) with (String "[" s).
  pose proof (parse_elements_strings (x :: l) f rest) as H.
  change (JS.join "," (List.map JSON.quote (x :: l)) +:+ "]" +:+ rest)
    with (JS.join "," (List.map JSON.quote (x :: l)) +:+ String "]" rest).
  remember (x :: l) as xs eqn:E. simpl.
  assert (exists tail, JS.join "," (List.map JSON.quote xs) +:+ String "]" rest
                       = String JSON.dquote tail) as [tail Htail].
  { subst xs. destruct l; simpl; rewrite ?append_assoc; eauto. }
  rewrite Htail in *. simpl. rewrite H; [reflexivity|by subst|done].
Qed.

(** One member of an object, up to the separator after its value. *)
Lemma parse_members_member f k vt v sep more :
  JSON.parse_value f (vt +:+ String sep more) = Some (v, String sep more) ->
  JSON.is_ws sep = false ->
  JSON.parse_members (S f) (JSON.quote k +:+ ":" +:+ vt +:+ String sep more)
  = if Ascii.eqb sep "," then
      '(ms, r) ← JSON.parse_members f more; Some ((k, v) :: ms, r)
    else if Ascii.eqb sep "}" then Some ([(k, v)], more)
    else None.
Proof.
  intros Hv Hsep. rewrite parse_members_eq, quote_append. simpl.
  rewrite parse_string_quote_chars. simpl. rewrite Hv. simpl.
  by rewrite Hsep.
Qed.

Lemma parse_value_object f k tail :
  JSON.parse_value (S f) (String "{" (JSON.quote k +:+ tail))
  = '(ms, r) ← JSON.parse_members f (JSON.quote k +:+ tail); Some (JSON.object_of ms, r).
Proof. rewrite quote_append. reflexivity. Qed.

Lemma parse_value_nullable_string f v rest :
  JSON.parse_value (S f) (JSON.stringify_nullable JSON.quote v +:+ rest)
  = Some (JSON.of_nullable JString v, rest).
Proof. destruct v; [apply parse_value_string|apply parse_value_null]. Qed.

Lemma parse_value_nullable_integer f v rest :
  ends_number rest = true ->
  JSON.parse_value (S f) (JSON.stringify_nullable JSON.stringify_integer v +:+ rest)
  = Some (JSON.of_nullable (fun z => JNumber z 0) v, rest).
Proof. destruct v; [apply parse_value_integer|intros _; apply parse_value_null]. Qed.

(** The text of an access token, member by member. *)
Lemma stringify_members t rest :
  JSON.stringify t +:+ rest
  = String "{"
      (JSON.quote "accessToken" +:+ ":" +:+ JSON.quote (accessToken t) +:+ String ","
      (JSON.quote "refreshToken" +:+ ":"
         +:+ JSON.stringify_nullable JSON.quote (refreshToken t) +:+ String ","
      (JSON.quote "scope" +:+ ":"
         +:+ JSON.stringify_array (List.map JSON.quote (scope t)) +:+ String ","
      (JSON.quote "expiresIn" +:+ ":"
         +:+ JSON.stringify_nullable JSON.stringify_integer (expiresIn t) +:+ String ","
      (JSON.quote "obtainmentTimestamp" +:+ ":"
         +:+ JSON.stringify_integer (obtainmentTimestamp t) +:+ String "}" rest))))).
Proof.
  unfold JSON.stringify, JSON.stringify_object.
  cbn [List.map JS.join fst snd].
  rewrite !append_assoc. reflexivity.
Qed.

Lemma parse_value_AccessToken t g rest :
  (length (scope t) <= g)%nat ->
  JSON.parse_value (7 + g) (JSON.stringify t +:+ rest)
  = Some (JSON.of_AccessToken t, rest).
Proof.
  intros Hg. rewrite stringify_members.
  change (7 + g)%nat with (S (S (S (S (S (S (S g))))))).
  rewrite parse_value_object.
  rewrite (parse_members_member _ _ _ (JString (accessToken t)));
    [|apply parse_value_string|reflexivity].
  cbn [Ascii.eqb Bool.eqb].
  rewrite (parse_members_member _ _ _ (JSON.of_nullable JString (refreshToken t)));
    [|apply parse_value_nullable_string|reflexivity].
  cbn [Ascii.eqb Bool.eqb].
  rewrite (parse_members_member _ _ _ (JArray (List.map JString (scope t))));
    [|apply parse_value_array; lia|reflexivity].
  cbn [Ascii.eqb Bool.eqb].
  rewrite (parse_members_member _ _ _
             (JSON.of_nullable (fun z => JNumber z 0) (expiresIn t)));
    [|by apply parse_value_nullable_integer|reflexivity].
  cbn [Ascii.eqb Bool.eqb].
  rewrite (parse_members_member _ _ _ (JNumber (obtainmentTimestamp t) 0));
    [|by apply parse_value_integer|reflexivity].
  reflexivity.
Qed.

Lemma length_join_quote l :
  (length l <= String.length (JS.join "," (List.map JSON.quote l)))%nat.
Proof.
  induction l as [|x [|y l] IH]; [done|simpl; lia|].
  change (JS.join "," (List.map JSON.quote (x :: y :: l)))
    with (JSON.quote x +:+ "," +:+ JS.join "," (List.map JSON.quote (y :: l))).
  rewrite !length_append. simpl in *. lia.
Qed.

Lemma length_stringify t :
  (length (scope t) + 3 <= String.length (JSON.stringify t))%nat.
Proof.
  rewrite <- (append_empty_r (JSON.stringify t)), stringify_members.
  unfold JSON.stringify_array.
  repeat (rewrite ?length_append; cbn [String.length]).
  pose proof (length_join_quote (scope t)). lia.
Qed.

(** Reading the text written for an access token gives the token back. *)
Lemma parse_stringify t : JSON.parse (JSON.stringify t) = Some (JSON.of_AccessToken t).
Proof.
  unfold JSON.parse.
  pose proof (length_stringify t) as Hlen.
  replace (2 * String.length (JSON.stringify t) + 2)%nat
    with (7 + (2 * String.length (JSON.stringify t) - 5))%nat by lia.
  rewrite <- (append_empty_r (JSON.stringify t)) at 2.
  rewrite parse_value_AccessToken by lia. reflexivity.
Qed.

Lemma truthy_of_AccessToken t : JSON.truthy (JSON.of_AccessToken t) = true.
Proof. reflexivity. Qed.

(** ** Failures of the Twitch calls *)

(** The two failures the callback answers itself: no token, no user. *)
Lemma callback_no_token_500 this tw code st w uid :
  notLegit (Some code) (Some st) w = false ->
  addUserForCode tw code = Resolved uid ->
  getAccessTokenForUser tw uid = Resolved None ->
  snd (routeTwitchAuthCallback this tw (Some code) (Some st) w)
  = Sent (mkResponse 500 [] "Failed to get access token.").
Proof.
  intros Hlegit Hx Ht. unfold routeTwitchAuthCallback.
  by rewrite Hlegit, Hx, Ht.
Qed.

Lemma callback_no_user_500 this tw code st w uid token :
  notLegit (Some code) (Some st) w = false ->
  addUserForCode tw code = Resolved uid ->
  getAccessTokenForUser tw uid = Resolved (Some token) ->
  getUserById tw uid = Resolved None ->
  snd (routeTwitchAuthCallback this tw (Some code) (Some st) w)
  = Sent (mkResponse 500 [] "Failed to load user.").
Proof.
  intros Hlegit Hx Ht Hu. unfold routeTwitchAuthCallback.
  by rewrite Hlegit, Hx, Ht, Hu.
Qed.

(** An awaited Twitch call that rejects ends the handler there: nothing is
    sent. *)
Lemma callback_exchange_rejected this tw code st w e :
  notLegit (Some code) (Some st) w = false ->
  addUserForCode tw code = Rejected e ->
  routeTwitchAuthCallback this tw (Some code) (Some st) w
  = (emit (AddUserForCode code) (set_twitchAuthState (delete st) w), Unanswered e).
Proof.
  intros Hlegit Hx. unfold routeTwitchAuthCallback.
  by rewrite Hlegit, Hx.
Qed.

(** C3, at the failing input.  The state key is pending and the code
    exchange fails: the handler has consumed the key and called the
    exchange, and then its promise is rejected.  No response is sent, neither
    500 nor any other. *)
Example callback_exchange_failure_unanswered :
  let n := freshState sampleEntropy in
  let result := routeTwitchAuthCallback sampleServer failingExchange
                  (Some "bad") (Some n) sampleIssued in
  pending n sampleIssued
  /\ snd result = Unanswered (TwitchError "Invalid authorization code")
  /\ trace (fst result) = trace sampleIssued ++ [AddUserForCode "bad"]
  /\ ~ pending n (fst result).
Proof.
  split; [|split; [|split]].
  - unfold pending, sampleIssued. simpl. rewrite lookup_insert_eq. eauto.
  - vm_compute. reflexivity.
  - vm_compute. reflexivity.
  - unfold pending. intros [h Hh]. vm_compute in Hh. discriminate Hh.
Qed.

(** ** Saving the token and creating the bot *)

(** C4 as stated fails.  In this successful callback for the bot account the
    bot is created while the cache file write is still in flight: at the end
    of the handler the directory has no file yet, and in the trace of the
    whole run, with the event loop settled, no write has completed before
    [CreateBot]. *)
Lemma bot_created_before_save_completes :
  let n := freshState sampleEntropy in
  let result := routeTwitchAuthCallback sampleServer sampleTwitch
                  (Some "abc") (Some n) sampleIssued in
  snd result = Sent (mkResponse 200 [] "welcome papakumo!")
  /\ In (CreateBot (mkHelixUser "123" "papakumo")) (trace (fst result))
  /\ cacheDir (fst result) !! "twitch.123.json" = None
  /\ inflight (fst result) = [WriteFile "twitch.123.json" (JSON.stringify sampleToken)]
  /\ ~ saved_before_bot (trace (settle_all (fst result))).
Proof.
  split; [vm_compute; reflexivity|].
  split; [vm_compute; tauto|].
  split; [vm_compute; reflexivity|].
  split; [vm_compute; reflexivity|].
  intros Hsaved.
  destruct (Hsaved 6%nat (mkHelixUser "123" "papakumo")) as (j & f & Hj & Hdone).
  { vm_compute. reflexivity. }
  do 6 (destruct j as [|j]; [vm_compute in Hdone; discriminate Hdone|]).
  lia.
Qed.

(** C4, amended.  In a successful callback for the bot account the write of
    the cache file is started before the bot is created, and that is all: when
    the handler has answered, the write is still in flight and the directory
    is as before; the file is there once the event loop has settled the
    write, after the answer. *)
Theorem save_started_before_bot (this : Server) (tw : Twitch) (code st : string)
    (w : World) (uid : string) (token : AccessToken) (u : HelixUser) :
  notLegit (Some code) (Some st) w = false ->
  addUserForCode tw code = Resolved uid ->
  getAccessTokenForUser tw uid = Resolved (Some token) ->
  getUserById tw uid = Resolved (Some u) ->
  name u = user (botConfig this) ->
  let result := routeTwitchAuthCallback this tw (Some code) (Some st) w in
  let w' := fst result in
  let f := cacheFileName uid in
  snd result = Sent (mkResponse 200 [] ("welcome " +:+ name u +:+ "!"))
  /\ trace w' = trace w ++ [ AddUserForCode code; GetAccessTokenForUser uid;
                             GetUserById uid;
                             WriteFileStarted f (JSON.stringify token);
                             CreateBot u;
                             Send 200 ("welcome " +:+ name u +:+ "!") ]
  /\ inflight w' = inflight w ++ [WriteFile f (JSON.stringify token)]
  /\ cacheDir w' = cacheDir w
  /\ cacheDir (settle_inflight (length (inflight w)) w')
     = <[f := JSON.stringify token]> (cacheDir w)
  /\ trace (settle_inflight (length (inflight w)) w') = trace w' ++ [WriteFileDone f].
Proof.
  intros Hlegit Hx Ht Hu Hbot. apply String.eqb_eq in Hbot. simpl.
  unfold routeTwitchAuthCallback.
  rewrite Hlegit, Hx, Ht, Hu, Hbot.
  split; [reflexivity|]. split.
  { simpl. by rewrite <- !app_assoc. }
  split; [reflexivity|]. split; [reflexivity|].
  unfold settle_inflight. simpl.
  rewrite lookup_app_r by lia. rewrite Nat.sub_diag. simpl.
  done.
Qed.

Lemma save_started_before_bot_witness :
  let n := freshState sampleEntropy in
  notLegit (Some "abc") (Some n) sampleIssued = false
  /\ name (mkHelixUser "123" "papakumo") = user (botConfig sampleServer)
  /\ cacheDir (fst (routeTwitchAuthCallback sampleServer sampleTwitch
                      (Some "abc") (Some n) sampleIssued))
     = cacheDir sampleIssued.
Proof.
  intros n.
  assert (notLegit (Some "abc") (Some n) sampleIssued = false) as H1
    by (vm_compute; reflexivity).
  assert (name (mkHelixUser "123" "papakumo") = user (botConfig sampleServer)) as H2
    by reflexivity.
  split; [exact H1|]. split; [exact H2|].
  exact (proj1 (proj2 (proj2 (proj2
    (save_started_before_bot sampleServer sampleTwitch "abc" n sampleIssued
       "123" sampleToken (mkHelixUser "123" "papakumo")
       H1 eq_refl eq_refl eq_refl H2))))).
Defined.

(** ** Removing a cached token *)


Lemma await_uncache_present userId w c :
  cacheDir w !! cacheFileName userId = Some c ->
  await_uncacheTwitchAccessToken userId w
  = (emit (RmDone (cacheFileName userId))
       (set_cacheDir (delete (cacheFileName userId))
          (emit (RmStarted (cacheFileName userId)) w)),
     Resolved tt).
Proof.
  intros H. unfold await_uncacheTwitchAccessToken, settle. simpl. by rewrite H.
Qed.




(** ** File names and user ids *)

Lemma append_cancel_r (s t x : string) : s +:+ x = t +:+ x -> s = t.
Proof.
  revert t. induction s as [|a s IH]; intros [|b t] H; try done.
  - exfalso. apply (f_equal String.length) in H.
    simpl in H. rewrite length_append in H. lia.
  - exfalso. apply (f_equal String.length) in H.
    simpl in H. rewrite length_append in H. lia.
  - simpl in H. injection H as -> H. f_equal. by apply IH.
Qed.

Lemma cacheFileName_inj u u' : cacheFileName u = cacheFileName u' -> u = u'.
Proof.
  unfold cacheFileName. intros H. simpl in H. injection H as H.
  by apply append_cancel_r in H.
Qed.

Lemma free_cut c s : free c (fst (URL.cut c s)) = true.
Proof.
  induction s as [|a s IH]; [done|]. simpl.
  destruct (Ascii.eqb a c) eqn:E; [done|].
  destruct (URL.cut c s) as [before after]. simpl in *. by rewrite E, IH.
Qed.

Lemma cut_not_free c s x :
  free c s = false -> fst (URL.cut c (s +:+ x)) = fst (URL.cut c s).
Proof.
  induction s as [|a s IH]; [done|]. simpl.
  destruct (Ascii.eqb a c); [done|]. simpl. intros Hs.
  specialize (IH Hs).
  destruct (URL.cut c (s +:+ x)), (URL.cut c s). simpl in *. by rewrite IH.
Qed.

(** The first piece of a split is what comes before the first separator. *)
Lemma split_head c s :
  exists pieces, JS.split c s = fst (URL.cut c s) :: pieces.
Proof.
  induction s as [|a s [pieces IH]]; [by eexists|]. simpl.
  destruct (Ascii.eqb a c); [by eexists|].
  rewrite IH. destruct (URL.cut c s). by eexists.
Qed.


(** [fileName.split(".")[1]] for a file the loader does not skip. *)
Lemma split_twitch r : nth 1 (JS.split "." ("twitch." +:+ r)) EmptyString = upToDot r.
Proof.
  destruct (split_head "." r) as [pieces H]. simpl. by rewrite H.
Qed.

Lemma upToDot_cacheFileName u :
  nth 1 (JS.split "." (cacheFileName u)) EmptyString = upToDot u.
Proof.
  unfold cacheFileName. rewrite split_twitch. unfold upToDot.
  destruct (free "." u) eqn:E.
  - change (u +:+ ".json") with (u +:+ String "." "json").
    by rewrite cut_free, cut_free_end.
  - by apply cut_not_free.
Qed.


(** ** Reloading what was saved *)

(** The loader only adds to the trace. *)
Lemma loader_trace_grows this tw l : forall w,
  exists tail,
    trace (fst (loadCachedTwitchAccessTokens_loop this tw l w)) = trace w ++ tail.
Proof.
  induction l as [|f l IH]; intros w.
  { exists []. simpl. by rewrite app_nil_r. }
  cbn [loadCachedTwitchAccessTokens_loop].
  destruct (JS.startsWith "twitch." f); cbn [negb]; [|apply IH].
  destruct (cacheDir w !! f) as [content|];
    [|exists []; simpl; by rewrite app_nil_r].
  destruct (JSON.parse content) as [token|];
    [|exists []; simpl; by rewrite app_nil_r].
  destruct (JSON.truthy token); cbn [negb].
  - destruct (addUser tw _ _) as [[]|e]; [|by eexists].
    destruct (getUserById tw _) as [[u'|]|e]; [destruct (String.eqb _ _)| |];
      try loader_continue IH.
    simpl. rewrite <- ?app_assoc. by eexists.
  - unfold uncacheTwitchAccessToken. loader_continue IH.
Qed.

(** The loader, at a file holding the text of a token: the token is
    registered under the user id taken from the file name. *)
Lemma loader_registers this tw u c rest w :
  cacheDir w !! cacheFileName u = Some (JSON.stringify c) ->
  exists tail,
    trace (fst (loadCachedTwitchAccessTokens_loop this tw (cacheFileName u :: rest) w))
    = trace w ++ AddUser (upToDot u) (JSON.of_AccessToken c) :: tail.
Proof.
  intros Hfile.
  cbn [loadCachedTwitchAccessTokens_loop].
  change (JS.startsWith "twitch." (cacheFileName u)) with true. cbn [negb].
  rewrite Hfile, parse_stringify, truthy_of_AccessToken, upToDot_cacheFileName.
  cbn [negb].
  pose proof (loader_trace_grows this tw rest) as Hgrows.
  destruct (addUser tw _ _) as [[]|e]; [|by eexists].
  destruct (getUserById tw _) as [[u'|]|e]; [destruct (String.eqb _ _)| |];
    try loader_continue Hgrows.
  simpl. rewrite <- ?app_assoc. by eexists.
Qed.

(** When [twitch.<u>.json] is a file name, the path of the user's cache file
    is the entry of that name in [_cache]. *)
Lemma join_file_name f :
  is_file_name f = true -> Path.join ("./_cache/" +:+ f) = Some ["_cache"; f].
Proof.
  unfold is_file_name. rewrite !andb_true_iff, !negb_true_iff.
  intros [[[[[Hfree _] _] He] Hd] Hdd].
  unfold Path.join. simpl. rewrite (split_free_end _ _ Hfree). simpl.
  by rewrite He, Hd, Hdd.
Qed.

(** A write that was started, when the event loop settles it. *)
Lemma settle_started_write f content w :
  let w' := settle_inflight (length (inflight w)) (start (WriteFile f content) w) in
  cacheDir w' = <[f := content]> (cacheDir w)
  /\ inflight w' = inflight w
  /\ trace w' = trace w ++ [WriteFileStarted f content; WriteFileDone f].
Proof.
  unfold settle_inflight. simpl.
  rewrite lookup_app_r by lia. rewrite Nat.sub_diag. simpl.
  split; [done|]. split; [|by rewrite <- app_assoc].
  rewrite take_app_length, drop_ge; [apply app_nil_r|].
  rewrite length_app. simpl. lia.
Qed.

Lemma settle_started_write_idle f content w :
  inflight w = [] ->
  let w' := settle_inflight 0 (start (WriteFile f content) w) in
  cacheDir w' = <[f := content]> (cacheDir w) /\ inflight w' = [].
Proof.
  intros Hidle. pose proof (settle_started_write f content w) as H.
  rewrite Hidle in H. split; apply H.
Qed.

(** ** The cache files on disk *)

#[local] Instance cacheEntry_inj : Inj (=) (=) cacheEntry.
Proof. intros f g H. by injection H. Qed.

Lemma cacheEntry_not_dir f dir : cacheEntry f ∉ Disk.dirs (cacheOnDisk dir).
Proof.
  simpl. intros [H|H]%elem_of_union; apply elem_of_singleton in H; discriminate H.
Qed.

(** The cache directory is there, for every entry of it. *)
Lemma to_directory_cache_entry f whole dir :
  Disk.to_directory [] (cacheEntry f) whole (cacheOnDisk dir) = None.
Proof.
  simpl. rewrite bool_decide_eq_false_2.
  - rewrite bool_decide_eq_true_2; [done|].
    apply elem_of_union_r, elem_of_singleton; reflexivity.
  - intros [x Hx].
    apply lookup_kmap_Some in Hx as (g & Hg & _); [|apply _]. discriminate Hg.
Qed.

Lemma is_file_name_on_disk f :
  is_file_name f = true ->
  Disk.has_nul (cacheEntry f) = false /\ Disk.too_long f = false.
Proof.
  unfold is_file_name. rewrite !andb_true_iff.
  intros [[[[[_ Hnul] Hlen] _] _] _]. split.
  - unfold Disk.has_nul, cacheEntry. cbn [existsb]. rewrite Hnul. reflexivity.
  - unfold Disk.too_long, Disk.NAME_MAX. apply Nat.ltb_ge. by apply Nat.leb_le.
Qed.

(** On the entries of the cache directory, the operations on disk do what
    [settle] does to [cacheDir]. *)
Lemma writeFile_cache_entry f content dir :
  is_file_name f = true ->
  Disk.writeFile (cacheEntry f) content (cacheOnDisk dir)
  = (cacheOnDisk (<[f := content]> dir), Resolved tt).
Proof.
  intros [Hnul Hlen]%is_file_name_on_disk.
  unfold Disk.writeFile. rewrite Hnul, to_directory_cache_entry.
  cbn [List.last cacheEntry]. rewrite Hlen.
  rewrite (bool_decide_eq_false_2 _ (cacheEntry_not_dir f dir)).
  simpl. unfold cacheOnDisk. by rewrite kmap_insert by apply _.
Qed.

Lemma rm_cache_entry f dir :
  is_file_name f = true ->
  Disk.rm (cacheEntry f) (cacheOnDisk dir)
  = match dir !! f with
    | Some _ => (cacheOnDisk (delete f dir), Resolved tt)
    | None => (cacheOnDisk dir, Rejected (ENOENT (JS.join "/" (cacheEntry f))))
    end.
Proof.
  intros [Hnul Hlen]%is_file_name_on_disk.
  unfold Disk.rm. rewrite Hnul, to_directory_cache_entry.
  cbn [List.last cacheEntry]. rewrite Hlen.
  rewrite (bool_decide_eq_false_2 _ (cacheEntry_not_dir f dir)).
  cbn [Disk.files cacheOnDisk]. rewrite lookup_kmap by apply _.
  destruct (dir !! f); [|done]. unfold cacheOnDisk. by rewrite kmap_delete by apply _.
Qed.

(** For a user whose cache file name is a file name, saving and removing on
    disk are the write and the removal of that entry. *)
Lemma onDisk_save u c dir :
  is_file_name (cacheFileName u) = true ->
  OnDisk.cacheTwitchAccessToken u c (cacheOnDisk dir)
  = Some (cacheOnDisk (<[cacheFileName u := JSON.stringify c]> dir), Resolved tt).
Proof.
  intros Hname. unfold OnDisk.cacheTwitchAccessToken, cachePath.
  rewrite (join_file_name _ Hname). simpl.
  by rewrite <- (writeFile_cache_entry (cacheFileName u)).
Qed.

Lemma onDisk_remove u dir content :
  is_file_name (cacheFileName u) = true ->
  dir !! cacheFileName u = Some content ->
  OnDisk.uncacheTwitchAccessToken u (cacheOnDisk dir)
  = Some (cacheOnDisk (delete (cacheFileName u) dir), Resolved tt).
Proof.
  intros Hname Hfile. unfold OnDisk.uncacheTwitchAccessToken, cachePath.
  rewrite (join_file_name _ Hname). simpl.
  change ["_cache"; cacheFileName u] with (cacheEntry (cacheFileName u)).
  by rewrite rm_cache_entry, Hfile.
Qed.

(** C8 as stated fails.  The file of a user is found by joining the
    user id into a path, and [/] and [..] in the id are parts of that path.
    The file of [a/b] is [b.json] in a directory [_cache/twitch.a]: in a cache
    directory of plain files the save is rejected with ENOENT and nothing is
    stored.  The ids [x/../twitch.5] and [5] are two users with one file,
    [_cache/twitch.5.json]: a save for the first replaces the token that was
    saved for the second.  A user id with a NUL in it, and one of 250
    characters, whose file name would be longer than a name can be, are
    rejected as well. *)
Lemma save_not_keyed_by_user :
  cachePath "a/b" = Some ["_cache"; "twitch.a"; "b.json"]
  /\ OnDisk.cacheTwitchAccessToken "a/b" sampleToken (cacheOnDisk ∅)
     = Some (cacheOnDisk ∅, Rejected (ENOENT "_cache/twitch.a/b.json"))
  /\ "x/../twitch.5" <> "5"
  /\ cachePath "x/../twitch.5" = Some ["_cache"; "twitch.5.json"]
  /\ cachePath "5" = Some ["_cache"; "twitch.5.json"]
  /\ OnDisk.cacheTwitchAccessToken "x/../twitch.5" otherToken
       (cacheOnDisk {[ "twitch.5.json" := JSON.stringify sampleToken ]})
     = Some (cacheOnDisk {[ "twitch.5.json" := JSON.stringify otherToken ]},
             Resolved tt)
  /\ JSON.stringify otherToken <> JSON.stringify sampleToken
  /\ OnDisk.cacheTwitchAccessToken nulId sampleToken (cacheOnDisk ∅)
     = Some (cacheOnDisk ∅,
             Rejected (ERR_INVALID_ARG_VALUE ("_cache/" +:+ cacheFileName nulId)))
  /\ OnDisk.cacheTwitchAccessToken longId sampleToken (cacheOnDisk ∅)
     = Some (cacheOnDisk ∅,
             Rejected (ENAMETOOLONG ("_cache/" +:+ cacheFileName longId))).
Proof.
  split; [reflexivity|]. split; [vm_compute; reflexivity|].
  split; [discriminate|]. split; [reflexivity|]. split; [reflexivity|].
  split; [|split; [discriminate|split; vm_compute; reflexivity]].
  unfold OnDisk.cacheTwitchAccessToken.
  change (cachePath "x/../twitch.5") with (Some (cacheEntry "twitch.5.json")).
  simpl. rewrite writeFile_cache_entry by reflexivity.
  by rewrite insert_singleton_eq.
Qed.

(** C8, amended.  Let [twitch.<u>.json] be a file name, the number fields
    of [c] safe integers, and no file operation in flight.  Then the path the
    code computes is the entry [twitch.<u>.json] of [_cache], and the save
    does on disk what it does to [cacheDir];
    [cacheTwitchAccessToken(u, c)] starts one write of [JSON.stringify(c)] to
    that file, and awaiting the call completes.  Once the write has settled,
    the file holds text that [JSON.parse] reads back as [c], which is what
    the loader passes to [addUser] at the next start; no other such user has
    this file, the files of other users are as they were, and a second save
    for the same user replaces the first: one file, holding the token saved
    last. *)
Theorem cache_round_trip (this : Server) (tw : Twitch) (u : string)
    (c : AccessToken) (w : World) :
  is_file_name (cacheFileName u) = true ->
  safe_numbers c = true ->
  inflight w = [] ->
  let f := cacheFileName u in
  let started := cacheTwitchAccessToken u c w in
  let w' := settle_inflight 0 started in
  cachePath u = Some ["_cache"; f]
  /\ OnDisk.cacheTwitchAccessToken u c (cacheOnDisk (cacheDir w))
     = Some (cacheOnDisk (cacheDir w'), Resolved tt)
  /\ inflight started = [WriteFile f (JSON.stringify c)]
  /\ snd (await_cacheTwitchAccessToken u c w) = Resolved tt
  /\ cacheDir (fst (await_cacheTwitchAccessToken u c w)) = cacheDir w'
  /\ inflight w' = []
  /\ cacheDir w' = <[f := JSON.stringify c]> (cacheDir w)
  /\ (cacheDir w' !! f ≫= JSON.parse) = Some (JSON.of_AccessToken c)
  /\ (exists tail,
        trace (fst (loadCachedTwitchAccessTokens_loop this tw [f] w'))
        = trace w' ++ AddUser (upToDot u) (JSON.of_AccessToken c) :: tail)
  /\ dom (cacheDir w') = {[f]} ∪ dom (cacheDir w)
  /\ (forall u', is_file_name (cacheFileName u') = true ->
        cachePath u' = cachePath u -> u' = u)
  /\ (forall u', u' <> u -> cacheDir w' !! cacheFileName u' = cacheDir w !! cacheFileName u')
  /\ (forall c0, safe_numbers c0 = true ->
        let first := settle_inflight 0 (cacheTwitchAccessToken u c0 w) in
        cacheDir (settle_inflight 0 (cacheTwitchAccessToken u c first)) = cacheDir w').
Proof.
  intros Hname _ Hidle f started w'.
  assert (cacheDir w' = <[f := JSON.stringify c]> (cacheDir w)) as Hdir
    by by apply settle_started_write_idle.
  assert (inflight w' = []) as Hfl by by apply settle_started_write_idle.
  assert (cacheDir w' !! f = Some (JSON.stringify c)) as Hfile
    by (rewrite Hdir; apply lookup_insert_eq).
  split; [by apply join_file_name|].
  split; [rewrite Hdir; by apply onDisk_save|].
  split; [unfold started, cacheTwitchAccessToken; simpl; by rewrite Hidle|].
  split; [reflexivity|]. split; [by rewrite Hdir|]. split; [done|].
  split; [done|].
  split; [rewrite Hfile; apply parse_stringify|].
  split; [by apply loader_registers|].
  split; [rewrite Hdir; apply dom_insert_L|].
  split.
  { intros u' Hu'. unfold cachePath.
    rewrite (join_file_name _ Hu'), (join_file_name _ Hname).
    intros H. apply cacheFileName_inj. congruence. }
  split.
  - intros u' Hu'. rewrite Hdir. apply lookup_insert_ne.
    intros H. apply Hu'. symmetry. by apply cacheFileName_inj.
  - intros c0 _ first.
    assert (cacheDir first = <[f := JSON.stringify c0]> (cacheDir w)) as Hdir0
      by by apply settle_started_write_idle.
    assert (inflight first = []) as Hfl0 by by apply settle_started_write_idle.
    transitivity (<[f := JSON.stringify c]> (cacheDir first));
      [by apply settle_started_write_idle|].
    rewrite Hdir0, Hdir. apply insert_insert_eq.
Qed.

Lemma cache_round_trip_witness :
  is_file_name (cacheFileName "123") = true
  /\ safe_numbers sampleToken = true
  /\ inflight initialWorld = []
  /\ cachePath "123" = Some ["_cache"; cacheFileName "123"].
Proof.
  split; [reflexivity|]. split; [reflexivity|]. split; [reflexivity|].
  exact (proj1 (cache_round_trip sampleServer sampleTwitch "123" sampleToken
                  initialWorld eq_refl eq_refl eq_refl)).
Defined.


(** A file that [JSON.parse] cannot read ends the loader where it stands. *)
Lemma loader_unparsable_rejects this tw f rest w content :
  JS.startsWith "twitch." f = true ->
  cacheDir w !! f = Some content ->
  JSON.parse content = None ->
  loadCachedTwitchAccessTokens_loop this tw (f :: rest) w = (w, Rejected SyntaxError).
Proof.
  intros Hp Hf Hparse. cbn [loadCachedTwitchAccessTokens_loop].
  by rewrite Hp, Hf, Hparse.
Qed.

(** C2, at the failing input.  The cache directory holds a file that is not
    JSON, listed first, and a good one.  The loader's promise is rejected
    with the [SyntaxError] of [JSON.parse]; the world is as it was: the
    corrupt file is still there, no removal was started, and the good file
    was never reached. *)
Example loader_corrupt_file_throws :
  readdir corruptCache = ["twitch.111.json"; "twitch.222.json"]
  /\ JSON.parse "{" = None
  /\ loadCachedTwitchAccessTokens sampleServer sampleTwitch corruptCache
     = (corruptCache, Rejected SyntaxError)
  /\ cacheDir corruptCache !! "twitch.111.json" = Some "{"
  /\ trace corruptCache = [].
Proof. repeat split; vm_compute; reflexivity. Qed.

(** The guard after [JSON.parse] only catches text that parses to a falsy
    value, such as [null]: then the removal is started and the loop goes on. *)
Lemma loader_falsy_file_removed this tw f rest w content token :
  JS.startsWith "twitch." f = true ->
  cacheDir w !! f = Some content ->
  JSON.parse content = Some token ->
  JSON.truthy token = false ->
  loadCachedTwitchAccessTokens_loop this tw (f :: rest) w
  = loadCachedTwitchAccessTokens_loop this tw rest
      (uncacheTwitchAccessToken (nth 1 (JS.split "." f) EmptyString) w).
Proof.
  intros Hp Hf Hparse Hfalsy. cbn [loadCachedTwitchAccessTokens_loop].
  by rewrite Hp, Hf, Hparse, Hfalsy.
Qed.

(** * Further properties of the code *)

(** ** The state key *)

Lemma length_hex_of_byte b : String.length (JS.hex_of_byte b) = 2%nat.
Proof. reflexivity. Qed.

Lemma length_Buffer_toString_hex buf :
  String.length (JS.Buffer_toString_hex buf) = (2 * length buf)%nat.
Proof.
  induction buf as [|b buf IH]; [done|].
  cbn [JS.Buffer_toString_hex]. rewrite length_append, IH. simpl. lia.
Qed.

(** The two digits written for a byte give the byte back. *)
Lemma hex_of_byte_reads_back b :
  exists c1 c2 hi lo,
    JS.hex_of_byte b = String c1 (String c2 EmptyString)
    /\ URL.unhex c1 = Some hi /\ URL.unhex c2 = Some lo
    /\ Byte.of_N (16 * hi + lo) = Some b.
Proof. destruct b; by eexists _, _, _, _. Qed.

Lemma hex_of_byte_inj b b' rest rest' :
  JS.hex_of_byte b +:+ rest = JS.hex_of_byte b' +:+ rest' -> b = b' /\ rest = rest'.
Proof.
  destruct (hex_of_byte_reads_back b) as (c1 & c2 & hi & lo & -> & H1 & H2 & Hb).
  destruct (hex_of_byte_reads_back b') as (d1 & d2 & hi' & lo' & -> & H1' & H2' & Hb').
  simpl. intros [= -> -> ->]. split; [|done].
  rewrite H1 in H1'. rewrite H2 in H2'. injection H1' as <-. injection H2' as <-.
  rewrite Hb in Hb'. by injection Hb'.
Qed.

Lemma Buffer_toString_hex_inj buf : forall buf',
  length buf = length buf' ->
  JS.Buffer_toString_hex buf = JS.Buffer_toString_hex buf' -> buf = buf'.
Proof.
  induction buf as [|b buf IH]; intros [|b' buf'] Hlen H; try done.
  cbn [JS.Buffer_toString_hex] in H.
  apply hex_of_byte_inj in H as [-> H]. f_equal. apply IH; [|done].
  simpl in Hlen. lia.
Qed.

(** X1.  The state key of an authorization request is 40 lower-case
    hexadecimal digits; so it is never empty and never a name that the
    registry object inherits. *)
Theorem state_key_shape (entropy : nat -> Byte.byte) :
  is_state_key (freshState entropy)
  /\ JS.string_truthy (freshState entropy) = true
  /\ freshState entropy ∉ JS.Object_prototype_keys.
Proof.
  split; [split|split].
  - unfold freshState, JS.crypto_randomBytes.
    rewrite length_Buffer_toString_hex, length_map, length_seq. reflexivity.
  - apply Buffer_toString_hex_all_hex.
  - apply freshState_truthy.
  - apply freshState_not_inherited.
Qed.

(** X2.  Two authorization requests get the same state key exactly when
    their 20 random bytes are the same: the key loses nothing of the bytes
    drawn. *)
Theorem state_key_determines_bytes (e1 e2 : nat -> Byte.byte) :
  freshState e1 = freshState e2 <-> forall i, (i < 20)%nat -> e1 i = e2 i.
Proof.
  unfold freshState, JS.crypto_randomBytes. split.
  - intros H i Hi.
    apply Buffer_toString_hex_inj in H; [|by rewrite !length_map].
    apply (proj1 map_ext_in_iff H). apply in_seq. lia.
  - intros H. f_equal. apply map_ext_in. intros i Hi%in_seq. apply H. lia.
Qed.

(** ** What the handlers leave alone *)

Lemma now_start op w : now (start op w) = now w.
Proof. by destruct op. Qed.

Lemma cacheDir_start op w : cacheDir (start op w) = cacheDir w.
Proof. by destruct op. Qed.

Lemma now_callback this tw code state w :
  now (fst (routeTwitchAuthCallback this tw code state w)) = now w.
Proof.
  unfold routeTwitchAuthCallback.
  destruct code as [c|], state as [st|]; try done.
  destruct (notLegit _ _ _); [done|].
  callback_cases tw; simpl; by rewrite ?now_start.
Qed.

Lemma cacheDir_callback this tw code state w :
  cacheDir (fst (routeTwitchAuthCallback this tw code state w)) = cacheDir w.
Proof.
  unfold routeTwitchAuthCallback.
  destruct code as [c|], state as [st|]; try done.
  destruct (notLegit _ _ _); [done|].
  callback_cases tw; simpl; by rewrite ?cacheDir_start.
Qed.

Lemma now_settle_inflight i w : now (settle_inflight i w) = now w.
Proof.
  unfold settle_inflight. destruct (inflight w !! i) as [[f c|f]|]; simpl; [done| |done].
  by destruct (cacheDir w !! f).
Qed.

Lemma now_expire st w : now (expire st w) = now w.
Proof. unfold expire. by destruct (JS.truthy _). Qed.

Lemma now_fire h w : now (fire h w) = now w.
Proof.
  unfold fire. destruct (List.find _ _) as [t|]; [|done].
  destruct (deadline t <=? now w); [|done]. by rewrite now_expire.
Qed.

(** The registry after a callback: as before, or without the state
    presented. *)
Lemma callback_registry this tw code state w :
  twitchAuthState (fst (routeTwitchAuthCallback this tw code state w))
  = if notLegit code state w then twitchAuthState w
    else match state with
         | Some st => delete st (twitchAuthState w)
         | None => twitchAuthState w
         end.
Proof.
  unfold routeTwitchAuthCallback.
  destruct code as [c|], state as [st|];
    try (unfold notLegit; simpl; rewrite ?orb_true_r; done).
  destruct (notLegit _ _ _); [done|].
  callback_cases tw; simpl; by rewrite ?twitchAuthState_start.
Qed.

(** The timer callback removes its key if it is there, whatever the key. *)
Lemma expire_registry k w :
  twitchAuthState (expire k w) = delete k (twitchAuthState w).
Proof.
  unfold expire, JS.get. destruct (twitchAuthState w !! k) as [h|] eqn:E; [done|].
  destruct (bool_decide _); simpl; by rewrite delete_id.
Qed.

Lemma fire_registry h w :
  twitchAuthState (fire h w)
  = match List.find (fun t => Nat.eqb (handle t) h) (timers w) with
    | Some t => if deadline t <=? now w
                then delete (key t) (twitchAuthState w)
                else twitchAuthState w
    | None => twitchAuthState w
    end.
Proof.
  unfold fire. destruct (List.find _ _) as [t|]; [|done].
  destruct (deadline t <=? now w); [|done]. by rewrite expire_registry.
Qed.

Lemma timers_fire h w :
  timers (fire h w)
  = match List.find (fun t => Nat.eqb (handle t) h) (timers w) with
    | Some t => if deadline t <=? now w
                then List.filter (fun t => negb (Nat.eqb (handle t) h)) (timers w)
                else timers w
    | None => timers w
    end.
Proof.
  unfold fire. destruct (List.find _ _) as [t|]; [|done].
  destruct (deadline t <=? now w); [|done]. by rewrite timers_expire.
Qed.

Lemma nextHandle_fire h w : nextHandle (fire h w) = nextHandle w.
Proof.
  unfold fire. destruct (List.find _ _) as [t|]; [|done].
  destruct (deadline t <=? now w); [|done]. by rewrite nextHandle_expire.
Qed.

(** ** The registry and the timer queue *)

Lemma handle_unique (l : list Timer) t t' :
  NoDup (List.map handle l) -> In t l -> In t' l -> handle t = handle t' -> t = t'.
Proof.
  induction l as [|a l IH]; [done|]. simpl.
  intros Hnd [->|Ht] [->|Ht'] Heq; try done.
  - apply NoDup_cons in Hnd as [Hnotin _]. exfalso. apply Hnotin.
    rewrite Heq. apply list_elem_of_In, in_map, Ht'.
  - apply NoDup_cons in Hnd as [Hnotin _]. exfalso. apply Hnotin.
    rewrite <- Heq. apply list_elem_of_In, in_map, Ht.
  - apply NoDup_cons in Hnd as [_ Hnd]. by apply IH.
Qed.

Lemma NoDup_map_filter {A B} (f : A -> B) (p : A -> bool) l :
  NoDup (List.map f l) -> NoDup (List.map f (List.filter p l)).
Proof.
  induction l as [|a l IH]; [done|]. simpl.
  intros [Hnotin Hnd]%NoDup_cons. destruct (p a); [|by apply IH].
  simpl. apply NoDup_cons. split; [|by apply IH].
  intros Hin%list_elem_of_In%in_map_iff. apply Hnotin.
  destruct Hin as (x & <- & Hx%filter_In).
  apply list_elem_of_In, in_map, Hx.
Qed.

Lemma registry_ok_initial : registry_ok initialWorld.
Proof.
  split; [constructor|]. split; [constructor|].
  intros n h H. simpl in H. by rewrite lookup_empty in H.
Qed.

Lemma step_registry_ok this ev w :
  registry_ok w -> registry_ok (fst (step this ev w)).
Proof.
  intros (Hfresh & Hnd & Hreg).
  split; [by apply step_handles_fresh|].
  destruct ev as [entropy|tw code state|h'|ms|i]; simpl.
  - (* a new key and its timer *)
    split.
    + rewrite map_app. simpl. apply NoDup_app. split; [done|]. split.
      * intros x Hx ->%list_elem_of_singleton.
        apply list_elem_of_In, in_map_iff in Hx as (t & Ht & Hin).
        unfold handles_fresh in Hfresh. rewrite Forall_forall in Hfresh.
        apply list_elem_of_In, Hfresh in Hin. lia.
      * apply NoDup_singleton.
    + intros n h Hn. destruct (decide (freshState entropy = n)) as [<-|Hne].
      * rewrite lookup_insert_eq in Hn. injection Hn as <-.
        split; [apply state_key_shape|].
        eexists. split; [apply in_or_app; right; by left|]. simpl.
        repeat split; lia.
      * rewrite lookup_insert_ne in Hn by done.
        destruct (Hreg n h Hn) as (Hkey & t & Hin & Hh & Hk & Hd).
        split; [done|]. exists t. split; [apply in_or_app; by left|done].
  - pose proof (timers_callback this tw code state w) as Ht.
    pose proof (now_callback this tw code state w) as Hnow.
    pose proof (callback_registry this tw code state w) as Htas.
    destruct (routeTwitchAuthCallback this tw code state w) as [w1 o]. simpl in *.
    rewrite Ht, Hnow, Htas. split; [done|].
    intros n h Hn. apply Hreg.
    destruct (notLegit _ _ _); [done|]. destruct state as [st|]; [|done].
    rewrite lookup_delete in Hn. by case_decide.
  - rewrite timers_fire, fire_registry, now_fire.
    destruct (List.find _ (timers w)) as [t'|] eqn:Hfind; [|done].
    destruct (deadline t' <=? now w); [|done].
    split; [by apply NoDup_map_filter|].
    intros n h Hn. rewrite lookup_delete in Hn. case_decide as Hk; [done|].
    destruct (Hreg n h Hn) as (Hkey & t & Hin & Hh & Hkt & Hd).
    split; [done|]. exists t. split; [|done].
    apply filter_In. split; [done|]. apply negb_true_iff, Nat.eqb_neq.
    intros Heq. apply find_some in Hfind as [Hin' Hh'%Nat.eqb_eq].
    apply Hk. rewrite <- Hkt. f_equal.
    apply (handle_unique (timers w)); [done..|]. lia.
  - split; [done|]. intros n h Hn.
    destruct (Hreg n h Hn) as (Hkey & t & Hin & Hh & Hkt & Hd).
    split; [done|]. exists t. repeat split; try done. lia.
  - rewrite timers_settle_inflight, twitchAuthState_settle_inflight, now_settle_inflight.
    by split.
Qed.

Lemma run_registry_ok this evs : forall w,
  registry_ok w -> registry_ok (fst (run this evs w)).
Proof.
  induction evs as [|ev evs IH]; intros w Hok; [done|]. simpl.
  pose proof (step_registry_ok this ev w Hok) as Hstep.
  destruct (step this ev w) as [w1 o]. simpl in Hstep.
  specialize (IH w1 Hstep). by destruct (run this evs w1).
Qed.

(** X3.  In every world the server reaches from its start, each key of
    [twitchAuthState] is a key drawn by an authorization request (40 hex
    digits), and the timer it was stored with is still set, with that key,
    and due at most [DEFAULT_TWITCH_AUTH_TIMEOUT] from now: no key stays in
    the registry without the timer that removes it. *)
Theorem registry_keys_have_timers (this : Server) (evs : list Event) :
  let w := fst (run this evs initialWorld) in
  forall n h, twitchAuthState w !! n = Some h ->
    is_state_key n
    /\ exists t, In t (timers w) /\ handle t = h /\ key t = n
                 /\ armed h t w
                 /\ deadline t <= now w + DEFAULT_TWITCH_AUTH_TIMEOUT.
Proof.
  intros w n h Hn.
  destruct (run_registry_ok this evs initialWorld registry_ok_initial)
    as (_ & Hnd & Hreg). fold w in Hnd, Hreg.
  destruct (Hreg n h Hn) as (Hkey & t & Hin & Hh & Hk & Hd).
  split; [done|]. exists t. repeat split; try done.
  unfold armed.
  destruct (List.find _ (timers w)) as [t'|] eqn:Hfind.
  - apply find_some in Hfind as [Hin' Hh'%Nat.eqb_eq]. f_equal.
    apply (handle_unique (timers w)); [done..|]. lia.
  - exfalso. apply (find_none _ _ Hfind) in Hin. simpl in Hin.
    apply Nat.eqb_neq in Hin. lia.
Qed.

Lemma registry_keys_have_timers_witness :
  let n := freshState sampleEntropy in
  let w := fst (run sampleServer [GetAuth sampleEntropy; Elapse 1000] initialWorld) in
  twitchAuthState w !! n = Some 0%nat /\ is_state_key n.
Proof.
  intros n w.
  assert (twitchAuthState w !! n = Some 0%nat) as H by (vm_compute; reflexivity).
  split; [exact H|].
  exact (proj1 (registry_keys_have_timers sampleServer
                  [GetAuth sampleEntropy; Elapse 1000] n 0%nat H)).
Defined.

(** ** Authorization attempts do not disturb each other *)

(** X4.  An event changes what the registry holds for a key only if it
    concerns that key: an authorization request that draws it, a callback
    that presents it, or a timer that was set for it.  Every other request,
    timer, lapse of time or file completion leaves the key as it was. *)
Theorem registry_changes_only_for_own_key (this : Server) (ev : Event)
    (w : World) (n : string) :
  ~ concerns n w ev ->
  twitchAuthState (fst (step this ev w)) !! n = twitchAuthState w !! n.
Proof.
  intros Hnot. unfold concerns in Hnot.
  destruct ev as [entropy|tw code state|h|ms|i]; simpl.
  - apply lookup_insert_ne. intros Heq. apply Hnot. left. unfold reissues.
    by apply String.eqb_eq.
  - pose proof (callback_registry this tw code state w) as Htas.
    destruct (routeTwitchAuthCallback this tw code state w) as [w1 o]. simpl in *.
    rewrite Htas. destruct (notLegit _ _ _); [done|].
    destruct state as [st|]; [|done].
    apply lookup_delete_ne. intros ->. apply Hnot. right. left. simpl.
    apply String.eqb_refl.
  - rewrite fire_registry.
    destruct (List.find _ (timers w)) as [t|] eqn:Hfind; [|done].
    destruct (deadline t <=? now w); [|done].
    apply lookup_delete_ne. intros Hk. apply Hnot. right. right.
    by exists h, t.
  - done.
  - by rewrite twitchAuthState_settle_inflight.
Qed.

Lemma registry_changes_only_for_own_key_witness :
  let n := freshState sampleEntropy in
  ~ concerns n sampleIssued (GetAuthCallback sampleTwitch (Some "abc") (Some "other"))
  /\ twitchAuthState
       (fst (step sampleServer
               (GetAuthCallback sampleTwitch (Some "abc") (Some "other")) sampleIssued))
     !! n = twitchAuthState sampleIssued !! n.
Proof.
  intros n.
  assert (~ concerns n sampleIssued
            (GetAuthCallback sampleTwitch (Some "abc") (Some "other"))) as H.
  { intros [H|[H|(h & t & H & _)]]; [discriminate H|vm_compute in H; discriminate H|
                                     discriminate H]. }
  split; [exact H|].
  exact (registry_changes_only_for_own_key sampleServer _ sampleIssued n H).
Defined.

(** X5.  Two attempts in flight are independent: when two different keys
    are pending, the callback for the first gets past the guard, the second
    key is still pending afterwards, and its callback gets past the guard as
    well, whatever the Twitch calls of the first one came to. *)
Theorem pending_keys_validate_independently (this : Server) (tw1 tw2 : Twitch)
    (code1 code2 a b : string) (w : World) :
  pending a w -> pending b w -> a <> b ->
  JS.string_truthy code1 = true -> JS.string_truthy code2 = true ->
  JS.string_truthy a = true -> JS.string_truthy b = true ->
  let first := routeTwitchAuthCallback this tw1 (Some code1) (Some a) w in
  let second := routeTwitchAuthCallback this tw2 (Some code2) (Some b) (fst first) in
  is400 (Some (snd first)) = false
  /\ pending b (fst first)
  /\ ~ pending a (fst first)
  /\ is400 (Some (snd second)) = false
  /\ ~ pending b (fst second).
Proof.
  intros Ha Hb Hab Hc1 Hc2 Hta Htb first second.
  assert (is400 (Some (snd first)) = false) as H1
    by by apply callback_pending_validates.
  assert (pending b (fst first)) as Hb'.
  { unfold pending, first. rewrite callback_registry.
    destruct (notLegit _ _ _); [done|]. by rewrite lookup_delete_ne. }
  assert (is400 (Some (snd second)) = false) as H2
    by by apply callback_pending_validates.
  split; [done|]. split; [done|]. split; [|split; [done|]].
  - unfold pending, first. rewrite (callback_validated_consumes _ _ _ _ _ H1).
    by intros [? ?].
  - unfold pending, second. rewrite (callback_validated_consumes _ _ _ _ _ H2).
    by intros [? ?].
Qed.

Lemma pending_keys_validate_independently_witness :
  let a := freshState sampleEntropy in
  let b := freshState (fun _ => Byte.x00) in
  let w := fst (routeRedirectTwitchAuth sampleServer (fun _ => Byte.x00) sampleIssued) in
  pending a w /\ pending b w /\ a <> b
  /\ pending b (fst (routeTwitchAuthCallback sampleServer failingExchange
                       (Some "abc") (Some a) w)).
Proof.
  intros a b w.
  assert (pending a w) as Ha by (eexists; vm_compute; reflexivity).
  assert (pending b w) as Hb by (eexists; vm_compute; reflexivity).
  assert (a <> b) as Hab by (vm_compute; discriminate).
  split; [exact Ha|]. split; [exact Hb|]. split; [exact Hab|].
  exact (proj1 (proj2 (pending_keys_validate_independently
           sampleServer failingExchange sampleTwitch "abc" "def" a b w
           Ha Hb Hab eq_refl eq_refl eq_refl eq_refl))).
Defined.

(** ** A key is good for the whole timeout *)

Lemma now_step_mono this ev w : now w <= now (fst (step this ev w)).
Proof.
  destruct ev as [entropy|tw code state|h|ms|i]; simpl.
  - lia.
  - pose proof (now_callback this tw code state w) as H.
    destruct (routeTwitchAuthCallback this tw code state w). simpl in *. lia.
  - rewrite now_fire. lia.
  - lia.
  - rewrite now_settle_inflight. lia.
Qed.

Lemma now_run_mono this evs : forall w, now w <= now (fst (run this evs w)).
Proof.
  induction evs as [|ev evs IH]; intros w; [simpl; lia|]. simpl.
  pose proof (now_step_mono this ev w) as Hstep.
  destruct (step this ev w) as [w1 o]. simpl in Hstep.
  specialize (IH w1). destruct (run this evs w1). simpl in *. lia.
Qed.

(** Before the deadline [D] of all its timers, a pending key that no event
    presents or draws stays pending. *)
Lemma step_keeps_pending this ev w n D :
  reissues n ev = false -> carries n ev = false ->
  now w < D ->
  pending n w ->
  Forall (fun t => key t = n -> D <= deadline t) (timers w) ->
  pending n (fst (step this ev w))
  /\ Forall (fun t => key t = n -> D <= deadline t) (timers (fst (step this ev w))).
Proof.
  intros Hre Hca Hnow Hp Hall. unfold pending in *.
  destruct ev as [entropy|tw code state|h|ms|i]; simpl.
  - unfold reissues in Hre. apply String.eqb_neq in Hre.
    rewrite lookup_insert_ne by done. split; [done|].
    apply Forall_app. split; [done|]. constructor; [|constructor].
    simpl. intros Hk. by destruct Hre.
  - pose proof (timers_callback this tw code state w) as Ht.
    pose proof (callback_registry this tw code state w) as Htas.
    destruct (routeTwitchAuthCallback this tw code state w) as [w1 o]. simpl in *.
    rewrite Ht, Htas. split; [|done].
    destruct (notLegit _ _ _); [done|]. destruct state as [st|]; [|done].
    rewrite lookup_delete_ne; [done|]. intros ->.
    by rewrite String.eqb_refl in Hca.
  - rewrite fire_registry, timers_fire.
    destruct (List.find _ (timers w)) as [t|] eqn:Hfind; [|done].
    destruct (Z.leb_spec (deadline t) (now w)) as [Hdue|Hearly]; [|done].
    apply find_some in Hfind as [Hin _].
    rewrite Forall_forall in Hall. split.
    + rewrite lookup_delete_ne; [done|]. intros Hk.
      specialize (Hall t (proj2 (list_elem_of_In _ _) Hin) Hk). lia.
    + apply Forall_forall. intros x Hx%list_elem_of_In%filter_In.
      apply Hall, list_elem_of_In, Hx.
  - done.
  - by rewrite twitchAuthState_settle_inflight, timers_settle_inflight.
Qed.

Lemma run_keeps_pending this evs : forall w n D,
  Forall (fun ev => reissues n ev = false) evs ->
  Forall (fun ev => carries n ev = false) evs ->
  now (fst (run this evs w)) < D ->
  pending n w ->
  Forall (fun t => key t = n -> D <= deadline t) (timers w) ->
  pending n (fst (run this evs w)).
Proof.
  induction evs as [|ev evs IH]; intros w n D Hre Hca Hnow Hp Hall; [done|].
  apply Forall_cons in Hre as [Hre1 Hre]. apply Forall_cons in Hca as [Hca1 Hca].
  simpl in *.
  pose proof (now_step_mono this ev w) as Hmono.
  pose proof (step_keeps_pending this ev w n D Hre1 Hca1) as Hstep.
  destruct (step this ev w) as [w1 o]. simpl in *.
  pose proof (now_run_mono this evs w1) as Hmono'.
  specialize (IH w1 n D Hre Hca).
  destruct (run this evs w1) as [w2 history]. simpl in *.
  destruct Hstep as [Hp1 Hall1]; [lia|done..|].
  by apply IH.
Qed.

(** X6.  A state key is good for the whole timeout.  If no timer was set
    for the key before it was drawn, then after any events that neither
    present nor draw it, and as long as less than
    [DEFAULT_TWITCH_AUTH_TIMEOUT] has passed on the clock, the key is still
    pending and a callback presenting it with a code gets past the guard: no
    other request and no other timer removes it early. *)
Theorem key_valid_until_timeout (this : Server) (entropy : nat -> Byte.byte)
    (w : World) (evs : list Event) :
  let n := freshState entropy in
  let w1 := fst (routeRedirectTwitchAuth this entropy w) in
  let w' := fst (run this evs w1) in
  Forall (fun t => key t <> n) (timers w) ->
  Forall (fun ev => reissues n ev = false) evs ->
  Forall (fun ev => carries n ev = false) evs ->
  now w' < now w + DEFAULT_TWITCH_AUTH_TIMEOUT ->
  pending n w'
  /\ forall tw code, JS.string_truthy code = true ->
       is400 (Some (snd (routeTwitchAuthCallback this tw (Some code) (Some n) w')))
       = false.
Proof.
  intros n w1 w' Hold Hre Hca Hnow.
  assert (pending n w') as Hp.
  { apply (run_keeps_pending this evs w1 n (now w + DEFAULT_TWITCH_AUTH_TIMEOUT));
      try done.
    - unfold pending, w1. simpl. fold n. rewrite lookup_insert_eq. eauto.
    - unfold w1. simpl. apply Forall_app. split.
      + eapply Forall_impl; [exact Hold|]. simpl. intros t Ht Hk. by destruct Ht.
      + constructor; [|constructor]. simpl. lia. }
  split; [done|]. intros tw code Hc.
  apply callback_pending_validates; [done..|]. apply freshState_truthy.
Qed.

Lemma key_valid_until_timeout_witness :
  let n := freshState sampleEntropy in
  let evs := [ Elapse 299999; TimerFires 0;
               GetAuthCallback sampleTwitch (Some "abc") (Some "other") ] in
  Forall (fun t => key t <> n) (timers initialWorld)
  /\ Forall (fun ev => reissues n ev = false) evs
  /\ Forall (fun ev => carries n ev = false) evs
  /\ now (fst (run sampleServer evs sampleIssued)) < 0 + DEFAULT_TWITCH_AUTH_TIMEOUT
  /\ pending n (fst (run sampleServer evs sampleIssued)).
Proof.
  intros n evs.
  assert (Forall (fun t => key t <> n) (timers initialWorld)) as H1 by constructor.
  assert (Forall (fun ev => reissues n ev = false) evs) as H2 by (repeat constructor).
  assert (Forall (fun ev => carries n ev = false) evs) as H3 by (repeat constructor).
  assert (now (fst (run sampleServer evs sampleIssued))
          < 0 + DEFAULT_TWITCH_AUTH_TIMEOUT) as H4 by (vm_compute; reflexivity).
  split; [exact H1|]. split; [exact H2|]. split; [exact H3|]. split; [exact H4|].
  exact (proj1 (key_valid_until_timeout sampleServer sampleEntropy initialWorld evs
                  H1 H2 H3 H4)).
Defined.

(** ** The answers of the callback *)

(** A refused request changes nothing but the record of its answer. *)
Lemma callback_notLegit this tw code state w :
  notLegit code state w = true ->
  routeTwitchAuthCallback this tw code state w = send 400 "Invalid request." w.
Proof.
  intros H. unfold routeTwitchAuthCallback.
  destruct code as [c|], state as [st|]; try done. by rewrite H.
Qed.

(** X7.  A callback without a code (as when the user refused on Twitch's
    side) is answered 400 before the registry is touched: the state it
    presents is not consumed, and presenting it again with a code still gets
    past the guard. *)
Theorem callback_without_code_keeps_key (this : Server) (tw tw' : Twitch)
    (code : option string) (code' n : string) (w : World) :
  missing code = true ->
  pending n w -> JS.string_truthy n = true -> JS.string_truthy code' = true ->
  let refused := routeTwitchAuthCallback this tw code (Some n) w in
  refused = (emit (Send 400 "Invalid request.") w, invalidRequest)
  /\ pending n (fst refused)
  /\ is400 (Some (snd (routeTwitchAuthCallback this tw' (Some code') (Some n)
                         (fst refused)))) = false.
Proof.
  intros Hmiss Hp Hn Hc refused.
  assert (refused = (emit (Send 400 "Invalid request.") w, invalidRequest)) as Hr.
  { unfold refused. rewrite callback_notLegit; [done|].
    unfold notLegit. by rewrite Hmiss. }
  rewrite Hr. split; [done|]. split; [done|].
  by apply callback_pending_validates.
Qed.

Lemma callback_without_code_keeps_key_witness :
  let n := freshState sampleEntropy in
  missing None = true /\ pending n sampleIssued
  /\ pending n (fst (routeTwitchAuthCallback sampleServer sampleTwitch None (Some n)
                       sampleIssued)).
Proof.
  intros n.
  assert (pending n sampleIssued) as Hp by (eexists; vm_compute; reflexivity).
  split; [reflexivity|]. split; [exact Hp|].
  exact (proj1 (proj2 (callback_without_code_keeps_key sampleServer sampleTwitch
           sampleTwitch None "abc" n sampleIssued eq_refl Hp eq_refl eq_refl))).
Defined.

(** X8.  A state that is a property name every object inherits
    ([constructor], [toString], [__proto__], ...) gets past the guard with
    any code, in any world; when it is not a key of the registry the registry
    is left as it was, so the same request gets past the guard again. *)
Theorem inherited_state_always_passes (this : Server) (tw : Twitch)
    (code k : string) (w : World) :
  JS.string_truthy code = true ->
  k ∈ JS.Object_prototype_keys ->
  let result := routeTwitchAuthCallback this tw (Some code) (Some k) w in
  is400 (Some (snd result)) = false
  /\ (twitchAuthState w !! k = None -> twitchAuthState (fst result) = twitchAuthState w)
  /\ notLegit (Some code) (Some k) (fst result) = false.
Proof.
  intros Hc Hk result.
  pose proof (callback_inherited_key_passes code k w Hc Hk) as Hpass.
  split; [|split].
  - unfold result, routeTwitchAuthCallback. rewrite Hpass.
    callback_cases tw; reflexivity.
  - intros Habs. unfold result. rewrite callback_registry, Hpass.
    by apply delete_id.
  - by apply callback_inherited_key_passes.
Qed.

Lemma inherited_state_always_passes_witness :
  JS.string_truthy "abc" = true
  /\ "toString" ∈ JS.Object_prototype_keys
  /\ is400 (Some (snd (routeTwitchAuthCallback sampleServer failingExchange
                         (Some "abc") (Some "toString") initialWorld))) = false.
Proof.
  assert ("toString" ∈ JS.Object_prototype_keys) as Hk
    by (unfold JS.Object_prototype_keys; repeat (apply elem_of_cons; try (by left);
                                                  right)).
  split; [reflexivity|]. split; [exact Hk|].
  exact (proj1 (inherited_state_always_passes sampleServer failingExchange
                  "abc" "toString" initialWorld eq_refl Hk)).
Defined.

(** X9.  The callback is answered 400 "Invalid request." exactly when its
    guard refuses the request, and then nothing else happens; every response
    it sends has status 200, 400 or 500. *)
Theorem callback_statuses (this : Server) (tw : Twitch) (code state : option string)
    (w : World) :
  let result := routeTwitchAuthCallback this tw code state w in
  (snd result = invalidRequest <-> notLegit code state w = true)
  /\ (notLegit code state w = true -> fst result = emit (Send 400 "Invalid request.") w)
  /\ (forall r, snd result = Sent r -> status r = 200 \/ status r = 400 \/ status r = 500).
Proof.
  intros result. unfold result.
  destruct (notLegit code state w) eqn:Hg.
  - rewrite callback_notLegit by done. simpl.
    split; [done|]. split; [done|]. intros r [= <-]. simpl. lia.
  - assert (exists c st, code = Some c /\ state = Some st) as (c & st & -> & ->).
    { destruct code as [c|], state as [st|]; try by eauto.
      all: unfold notLegit in Hg; simpl in Hg; by rewrite ?orb_true_r in Hg. }
    unfold routeTwitchAuthCallback. rewrite Hg.
    callback_cases tw; simpl;
      (split; [split; [intros [=]|done]|]; split; [done|]);
      intros r [= <-]; simpl; lia.
Qed.

(** X10.  The callback saves a token only when it answers 200.  It answers
    200 exactly when the guard lets the request through and the code
    exchange, the token and the user lookup all come back with a value; then
    it has started one write, of that token, to the file of the user id the
    exchange returned.  On every other path no file operation is started. *)
Theorem callback_saves_only_on_success (this : Server) (tw : Twitch)
    (code state : option string) (w : World) :
  let result := routeTwitchAuthCallback this tw code state w in
  let succeeds uid token u :=
    notLegit code state w = false
    /\ exists c, code = Some c
       /\ addUserForCode tw c = Resolved uid
       /\ getAccessTokenForUser tw uid = Resolved (Some token)
       /\ getUserById tw uid = Resolved (Some u) in
  ((exists r, snd result = Sent r /\ status r = 200)
   <-> exists uid token u, succeeds uid token u)
  /\ (forall uid token u, succeeds uid token u ->
        snd result = Sent (mkResponse 200 [] ("welcome " +:+ name u +:+ "!"))
        /\ inflight (fst result)
           = inflight w ++ [WriteFile (cacheFileName uid) (JSON.stringify token)])
  /\ ((forall r, snd result = Sent r -> status r <> 200) ->
        inflight (fst result) = inflight w).
Proof.
  intros result succeeds.
  unfold result, succeeds. clear result succeeds.
  destruct (notLegit code state w) eqn:Hg.
  { rewrite callback_notLegit by done. simpl. split; [|split; [|done]].
    - split; [intros (r & [= <-] & Hr); discriminate Hr|
              by intros (? & ? & ? & [=] & _)].
    - by intros ? ? ? [[=] _]. }
  assert (exists c st, code = Some c /\ state = Some st) as (c & st & -> & ->).
  { destruct code as [c|], state as [st|]; try by eauto.
    all: unfold notLegit in Hg; simpl in Hg; by rewrite ?orb_true_r in Hg. }
  unfold routeTwitchAuthCallback. rewrite Hg.
  destruct (addUserForCode tw c) as [uid|e] eqn:Hx.
  2: { simpl. split; [|split; [|done]].
       - split; [by intros (r & [=] & _)|].
         intros (? & ? & ? & _ & c' & [= <-] & H & _). congruence.
       - intros ? ? ? (_ & c' & [= <-] & H & _). congruence. }
  destruct (getAccessTokenForUser tw uid) as [[token|]|e] eqn:Ht.
  2: { simpl. split; [|split; [|done]].
       - split; [intros (r & [= <-] & Hr); discriminate Hr|].
         intros (? & ? & ? & _ & c' & [= <-] & H1 & H2 & _). congruence.
       - intros ? ? ? (_ & c' & [= <-] & H1 & H2 & _). congruence. }
  2: { simpl. split; [|split; [|done]].
       - split; [by intros (r & [=] & _)|].
         intros (? & ? & ? & _ & c' & [= <-] & H1 & H2 & _). congruence.
       - intros ? ? ? (_ & c' & [= <-] & H1 & H2 & _). congruence. }
  destruct (getUserById tw uid) as [[u|]|e] eqn:Hu.
  2: { simpl. split; [|split; [|done]].
       - split; [intros (r & [= <-] & Hr); discriminate Hr|].
         intros (? & ? & ? & _ & c' & [= <-] & H1 & H2 & H3). congruence.
       - intros ? ? ? (_ & c' & [= <-] & H1 & H2 & H3). congruence. }
  2: { simpl. split; [|split; [|done]].
       - split; [by intros (r & [=] & _)|].
         intros (? & ? & ? & _ & c' & [= <-] & H1 & H2 & H3). congruence.
       - intros ? ? ? (_ & c' & [= <-] & H1 & H2 & H3). congruence. }
  assert (forall w0, inflight
            (if String.eqb (name u) (user (botConfig this))
             then createBot u w0 else w0) = inflight w0) as Hbot
    by (intros w0; by destruct (String.eqb _ _)).
  unfold send. simpl. rewrite Hbot. simpl.
  split; [|split].
  - split; [|by eauto]. intros _. exists uid, token, u. split; [done|]. by exists c.
  - intros uid' token' u' (_ & c' & [= <-] & H1 & H2 & H3).
    rewrite Hx in H1. injection H1 as <-. rewrite Ht in H2. injection H2 as <-.
    rewrite Hu in H3. by injection H3 as <-.
  - intros Hnot. exfalso. by apply (Hnot _ eq_refl).
Qed.

(** X11.  The callback creates a bot for nobody but the configured bot
    user: a [CreateBot] it adds to the trace is for a user whose name equals
    [botConfig.user], and the request was answered 200 with that user's
    welcome. *)
Theorem callback_creates_bot_only_for_bot_user (this : Server) (tw : Twitch)
    (code state : option string) (w : World) (u : HelixUser) :
  let result := routeTwitchAuthCallback this tw code state w in
  In (CreateBot u) (trace (fst result)) ->
  In (CreateBot u) (trace w)
  \/ (name u = user (botConfig this)
      /\ snd result = Sent (mkResponse 200 [] ("welcome " +:+ name u +:+ "!"))).
Proof.
  intros result. unfold result, routeTwitchAuthCallback. clear result.
  destruct code as [c|], state as [st|]; simpl;
    try (intros [H|[[=]|[]]]%in_app_or; by left).
  destruct (notLegit _ _ _); simpl;
    [intros [H|[[=]|[]]]%in_app_or; by left|].
  destruct (addUserForCode tw c) as [uid|e]; simpl.
  2: { intros [H|[[=]|[]]]%in_app_or. by left. }
  destruct (getAccessTokenForUser tw uid) as [[token|]|e]; simpl.
  2: { intros Hin. left. repeat (apply in_app_or in Hin as [Hin|[[=]|[]]]). done. }
  2: { intros Hin. left. repeat (apply in_app_or in Hin as [Hin|[[=]|[]]]). done. }
  destruct (getUserById tw uid) as [[u'|]|e]; simpl.
  2: { intros Hin. left. repeat (apply in_app_or in Hin as [Hin|[[=]|[]]]). done. }
  2: { intros Hin. left. repeat (apply in_app_or in Hin as [Hin|[[=]|[]]]). done. }
  destruct (String.eqb_spec (name u') (user (botConfig this))) as [Heq|Hne]; simpl.
  - intros Hin. apply in_app_or in Hin as [Hin|[[=]|[]]].
    apply in_app_or in Hin as [Hin|[[= <-]|[]]]; [|by right].
    left. repeat (apply in_app_or in Hin as [Hin|[[=]|[]]]). done.
  - intros Hin. left. repeat (apply in_app_or in Hin as [Hin|[[=]|[]]]). done.
Qed.

Lemma callback_creates_bot_only_for_bot_user_witness :
  let result := routeTwitchAuthCallback sampleServer sampleTwitch (Some "abc")
                  (Some (freshState sampleEntropy)) sampleIssued in
  In (CreateBot (mkHelixUser "123" "papakumo")) (trace (fst result))
  /\ (In (CreateBot (mkHelixUser "123" "papakumo")) (trace sampleIssued)
      \/ (name (mkHelixUser "123" "papakumo") = user (botConfig sampleServer)
          /\ snd result = Sent (mkResponse 200 []
                                  ("welcome " +:+ name (mkHelixUser "123" "papakumo")
                                   +:+ "!")))).
Proof.
  intros result.
  assert (In (CreateBot (mkHelixUser "123" "papakumo")) (trace (fst result))) as H
    by (vm_compute; tauto).
  split; [exact H|].
  exact (callback_creates_bot_only_for_bot_user sampleServer sampleTwitch (Some "abc")
           (Some (freshState sampleEntropy)) sampleIssued _ H).
Defined.

(** ** The loader *)

(** X12.  The loader starts no write.  Whatever the directory holds and
    whatever Twitch answers, the file operations that
    [loadCachedTwitchAccessTokens] starts are removals, each of the cache file
    of the user id cut from a listed file named [twitch.*]; and it leaves the
    state registry and the timers as they were. *)
Theorem loader_only_starts_removals (this : Server) (tw : Twitch)
    (fileNames : list string) (w : World) :
  let w' := fst (loadCachedTwitchAccessTokens_loop this tw fileNames w) in
  twitchAuthState w' = twitchAuthState w
  /\ timers w' = timers w
  /\ exists removed,
       inflight w' = inflight w ++ List.map Rm removed
       /\ Forall (removal_target fileNames) removed.
Proof.
  revert w. induction fileNames as [|f l IH]; intros w.
  { simpl. split; [done|]. split; [done|]. exists [].
    split; [simpl; by rewrite app_nil_r|constructor]. }
  cbn [loadCachedTwitchAccessTokens_loop].
  assert (forall (w0 : World) (pre : list string),
            twitchAuthState w0 = twitchAuthState w ->
            timers w0 = timers w ->
            inflight w0 = inflight w ++ List.map Rm pre ->
            Forall (removal_target (f :: l)) pre ->
            let w' := fst (loadCachedTwitchAccessTokens_loop this tw l w0) in
            twitchAuthState w' = twitchAuthState w
            /\ timers w' = timers w
            /\ exists removed,
                 inflight w' = inflight w ++ List.map Rm removed
                 /\ Forall (removal_target (f :: l)) removed) as Hnext.
  { intros w0 pre Hs Ht Hi Hpre. simpl.
    destruct (IH w0) as (Hs' & Ht' & removed' & Hi' & Hall).
    rewrite Hs', Ht', Hi', Hs, Ht, Hi. split; [done|]. split; [done|].
    exists (pre ++ removed'). split; [by rewrite map_app, app_assoc|].
    apply Forall_app. split; [done|].
    eapply Forall_impl; [exact Hall|].
    intros target (f' & Hin & Hp & ->). exists f'. split; [by right|done]. }
  assert (inflight w = inflight w ++ List.map Rm []) as Hnil
    by (simpl; by rewrite app_nil_r).
  assert (twitchAuthState w = twitchAuthState w
          /\ timers w = timers w
          /\ exists removed,
               inflight w = inflight w ++ List.map Rm removed
               /\ Forall (removal_target (f :: l)) removed) as Hstop.
  { split; [done|]. split; [done|]. exists []. split; [done|constructor]. }
  destruct (JS.startsWith "twitch." f) eqn:Hp; cbn [negb].
  2: { by apply (Hnext w []). }
  destruct (cacheDir w !! f) as [content|]; [|exact Hstop].
  destruct (JSON.parse content) as [token|]; [|exact Hstop].
  destruct (JSON.truthy token); cbn [negb].
  - destruct (addUser tw _ _) as [[]|e]; [|exact Hstop].
    destruct (getUserById tw _) as [[u|]|e]; [destruct (String.eqb _ _)| |];
      try (by apply (Hnext _ [])). exact Hstop.
  - apply (Hnext _ [cacheFileName (nth 1 (JS.split "." f) EmptyString)]);
      try done.
    constructor; [|constructor]. exists f. split; [by left|done].
Qed.

Lemma registered_app tr tr' : registered (tr ++ tr') = registered tr ++ registered tr'.
Proof.
  induction tr as [|e tr IH]; [done|]. destruct e; simpl; by rewrite ?IH.
Qed.

(** The loader over files that the server saved. *)
Lemma loader_saved_files this tw saved : forall w,
  (forall u c, In (u, c) saved ->
     cacheDir w !! cacheFileName u = Some (JSON.stringify c)) ->
  (forall u c e, In (u, c) saved ->
     addUser tw (upToDot u) (JSON.of_AccessToken c) <> Rejected e) ->
  (forall u c e, In (u, c) saved -> getUserById tw (upToDot u) <> Rejected e) ->
  let result := loadCachedTwitchAccessTokens_loop this tw
                  (List.map (fun s => cacheFileName (fst s)) saved) w in
  snd result = Resolved tt
  /\ inflight (fst result) = inflight w
  /\ registered (trace (fst result))
     = registered (trace w)
       ++ List.map (fun s => (upToDot (fst s), JSON.of_AccessToken (snd s))) saved.
Proof.
  induction saved as [|[u c] saved IH]; intros w Hsaved Haccepts Hlookup.
  { simpl. by rewrite app_nil_r. }
  cbn [List.map fst snd loadCachedTwitchAccessTokens_loop].
  change (JS.startsWith "twitch." (cacheFileName u)) with true. cbn [negb].
  rewrite (Hsaved u c) by by left.
  rewrite parse_stringify, truthy_of_AccessToken, upToDot_cacheFileName.
  cbn [negb].
  assert (forall w0 : World,
            cacheDir w0 = cacheDir w -> inflight w0 = inflight w ->
            registered (trace w0)
            = registered (trace w) ++ [(upToDot u, JSON.of_AccessToken c)] ->
            let result := loadCachedTwitchAccessTokens_loop this tw
                            (List.map (fun s => cacheFileName (fst s)) saved) w0 in
            snd result = Resolved tt
            /\ inflight (fst result) = inflight w
            /\ registered (trace (fst result))
               = registered (trace w)
                 ++ (upToDot u, JSON.of_AccessToken c)
                    :: List.map (fun s => (upToDot (fst s), JSON.of_AccessToken (snd s)))
                         saved) as Hnext.
  { intros w0 Hc Hi Hr. simpl.
    destruct (IH w0) as (H1 & H2 & H3).
    { intros u' c' Hin. rewrite Hc. apply Hsaved. by right. }
    { intros u' c' e Hin. apply Haccepts. by right. }
    { intros u' c' e Hin. apply (Hlookup u' c'). by right. }
    rewrite H1, H2, H3, Hi, Hr. split; [done|]. split; [done|].
    by rewrite <- app_assoc. }
  destruct (addUser tw (upToDot u) (JSON.of_AccessToken c)) as [[]|e] eqn:Ha.
  2: { destruct (Haccepts u c e); [by left|done]. }
  destruct (getUserById tw (upToDot u)) as [[u'|]|e] eqn:Hu.
  - destruct (String.eqb _ _); apply Hnext; try done;
      simpl; rewrite !registered_app; simpl; by rewrite ?app_nil_r.
  - apply Hnext; try done. simpl. rewrite !registered_app. simpl.
    by rewrite ?app_nil_r.
  - destruct (Hlookup u c e); [by left|done].
Qed.

(** X13.  At a start with no file operation in flight, where every listed
    file is one the server saved (a token with safe integers for numbers), the
    auth provider accepts each of the tokens and no user lookup is rejected,
    the loader completes; it passes each saved token to [addUser], in the
    order of the files, under the user id read from the file name; and it
    starts no removal. *)
Theorem loader_registers_saved_tokens (this : Server) (tw : Twitch)
    (saved : list (string * AccessToken)) (w : World) :
  inflight w = [] ->
  (forall u c, In (u, c) saved ->
     safe_numbers c = true
     /\ cacheDir w !! cacheFileName u = Some (JSON.stringify c)) ->
  (forall u c e, In (u, c) saved ->
     addUser tw (upToDot u) (JSON.of_AccessToken c) <> Rejected e) ->
  (forall u c e, In (u, c) saved -> getUserById tw (upToDot u) <> Rejected e) ->
  let result := loadCachedTwitchAccessTokens_loop this tw
                  (List.map (fun s => cacheFileName (fst s)) saved) w in
  snd result = Resolved tt
  /\ inflight (fst result) = []
  /\ registered (trace (fst result))
     = registered (trace w)
       ++ List.map (fun s => (upToDot (fst s), JSON.of_AccessToken (snd s))) saved.
Proof.
  intros Hidle Hsaved Haccepts Hlookup result.
  destruct (loader_saved_files this tw saved w
              (fun u c Hin => proj2 (Hsaved u c Hin)) Haccepts Hlookup)
    as (H1 & H2 & H3).
  split; [done|]. split; [|done]. unfold result. by rewrite H2.
Qed.

Lemma loader_registers_saved_tokens_witness :
  let w := settle_inflight 0 (cacheTwitchAccessToken "123" sampleToken initialWorld) in
  let saved := [("123", sampleToken)] in
  inflight w = []
  /\ (forall u c, In (u, c) saved ->
        safe_numbers c = true
        /\ cacheDir w !! cacheFileName u = Some (JSON.stringify c))
  /\ (forall u c e, In (u, c) saved ->
        addUser sampleTwitch (upToDot u) (JSON.of_AccessToken c) <> Rejected e)
  /\ (forall u c e, In (u, c) saved ->
        getUserById sampleTwitch (upToDot u) <> Rejected e)
  /\ snd (loadCachedTwitchAccessTokens_loop sampleServer sampleTwitch
            (List.map (fun s => cacheFileName (fst s)) saved) w) = Resolved tt.
Proof.
  intros w saved.
  assert (inflight w = []) as H0 by reflexivity.
  assert (forall u c, In (u, c) saved ->
            safe_numbers c = true
            /\ cacheDir w !! cacheFileName u = Some (JSON.stringify c)) as H1.
  { intros u c [[= <- <-]|[]]. split; [reflexivity|]. simpl. apply lookup_insert_eq. }
  assert (forall u c e, In (u, c) saved ->
            addUser sampleTwitch (upToDot u) (JSON.of_AccessToken c) <> Rejected e)
    as H2 by (intros u c e _; discriminate).
  assert (forall u c e, In (u, c) saved ->
            getUserById sampleTwitch (upToDot u) <> Rejected e) as H3
    by (intros u c e _; discriminate).
  split; [exact H0|]. split; [exact H1|]. split; [exact H2|]. split; [exact H3|].
  exact (proj1 (loader_registers_saved_tokens sampleServer sampleTwitch saved w
                  H0 H1 H2 H3)).
Defined.

(** X14.  When a file [twitch.<r>] holds text that parses to a falsy value
    such as [null], the loader goes on with the next file after starting a
    removal, not of the file it read but of the cache file of the user id cut
    from the name.  That is the same file exactly when the name is
    [twitch.<u>.json] with no dot in [u].  When the target does not exist,
    the removal ends as an unhandled rejection and the directory is as it
    was. *)
Theorem loader_removal_target (this : Server) (tw : Twitch) (r : string)
    (rest : list string) (w : World) (content : string) (token : json) :
  cacheDir w !! ("twitch." +:+ r) = Some content ->
  JSON.parse content = Some token ->
  JSON.truthy token = false ->
  let target := cacheFileName (upToDot r) in
  loadCachedTwitchAccessTokens_loop this tw (("twitch." +:+ r) :: rest) w
  = loadCachedTwitchAccessTokens_loop this tw rest (start (Rm target) w)
  /\ (target = "twitch." +:+ r <-> exists u, r = u +:+ ".json" /\ free "." u = true)
  /\ (cacheDir w !! target = None ->
        let settled := settle_inflight (length (inflight w)) (start (Rm target) w) in
        cacheDir settled = cacheDir w
        /\ trace settled
           = trace w ++ [RmStarted target; UnhandledRejection (ENOENT target)]).
Proof.
  intros Hfile Hparse Hfalsy target. split; [|split].
  - rewrite (loader_falsy_file_removed this tw _ rest w content token);
      [|done..]. by rewrite split_twitch.
  - unfold target, cacheFileName. split.
    + intros H. simpl in H. injection H as H. exists (upToDot r).
      split; [done|]. apply free_cut.
    + intros (u & -> & Hu). unfold upToDot.
      change (u +:+ ".json") with (u +:+ String "." "json").
      by rewrite cut_free.
  - intros Habs. unfold settle_inflight. simpl.
    rewrite lookup_app_r by lia. rewrite Nat.sub_diag. simpl.
    rewrite Habs. simpl. split; [done|]. by rewrite <- app_assoc.
Qed.

Lemma loader_removal_target_witness :
  let w := mkWorld ∅ [] 0 0 (<["twitch.7.bak.json" := "null"]> ∅) [] [] in
  cacheDir w !! ("twitch." +:+ "7.bak.json") = Some "null"
  /\ JSON.parse "null" = Some JNull
  /\ JSON.truthy JNull = false
  /\ loadCachedTwitchAccessTokens_loop sampleServer sampleTwitch
       [("twitch." +:+ "7.bak.json")] w
     = loadCachedTwitchAccessTokens_loop sampleServer sampleTwitch []
         (start (Rm (cacheFileName (upToDot "7.bak.json"))) w).
Proof.
  intros w.
  assert (cacheDir w !! ("twitch." +:+ "7.bak.json") = Some "null") as H1
    by (vm_compute; reflexivity).
  split; [exact H1|]. split; [reflexivity|]. split; [reflexivity|].
  exact (proj1 (loader_removal_target sampleServer sampleTwitch "7.bak.json" [] w
                  "null" JNull H1 eq_refl eq_refl)).
Defined.

(** ** Saving and removing *)

(** X15.  For a user whose cache file name is a file name, removing after
    saving succeeds and undoes the save: the user's file, an entry of
    [_cache], is gone, a directory that had no file for the user is as it was
    before the save, and the files of other users are untouched throughout. *)
Theorem save_then_remove (u : string) (c : AccessToken) (w : World) :
  is_file_name (cacheFileName u) = true ->
  let f := cacheFileName u in
  let saved := fst (await_cacheTwitchAccessToken u c w) in
  let removed := await_uncacheTwitchAccessToken u saved in
  cachePath u = Some ["_cache"; f]
  /\ OnDisk.uncacheTwitchAccessToken u (cacheOnDisk (cacheDir saved))
     = Some (cacheOnDisk (cacheDir (fst removed)), Resolved tt)
  /\ snd removed = Resolved tt
  /\ cacheDir (fst removed) = delete f (cacheDir w)
  /\ (cacheDir w !! f = None -> cacheDir (fst removed) = cacheDir w)
  /\ (forall u', u' <> u ->
        cacheDir (fst removed) !! cacheFileName u' = cacheDir w !! cacheFileName u').
Proof.
  intros Hname f saved removed.
  assert (cacheDir saved !! f = Some (JSON.stringify c)) as Hfile
    by (simpl; apply lookup_insert_eq).
  assert (cacheDir (fst removed) = delete f (cacheDir w)) as Hdir.
  { unfold removed. rewrite (await_uncache_present _ _ _ Hfile). simpl.
    apply delete_insert_eq. }
  split; [by apply join_file_name|].
  split.
  { rewrite (onDisk_remove u _ _ Hname Hfile). do 3 f_equal.
    unfold removed. by rewrite (await_uncache_present _ _ _ Hfile). }
  split; [|split; [done|split]].
  - unfold removed. by rewrite (await_uncache_present _ _ _ Hfile).
  - intros Habs. rewrite Hdir. by apply delete_id.
  - intros u' Hu'. rewrite Hdir. apply lookup_delete_ne.
    intros H. apply Hu'. symmetry. by apply cacheFileName_inj.
Qed.

Lemma save_then_remove_witness :
  is_file_name (cacheFileName "123") = true
  /\ snd (await_uncacheTwitchAccessToken "123"
            (fst (await_cacheTwitchAccessToken "123" sampleToken initialWorld)))
     = Resolved tt.
Proof.
  split; [reflexivity|].
  exact (proj1 (proj2 (proj2 (save_then_remove "123" sampleToken initialWorld
                                eq_refl)))).
Defined.

(** ** The provider and the authorization URL *)

(** X16.  The server built from a configuration asks Twitch for the same
    things its auth provider is set up with: the query of the authorization
    URL decodes to the provider's client id, its redirect URI and its implied
    scopes joined by spaces.  That redirect URI is [http://], the host name
    ([localhost] when none is configured), the port after a colon (13371 when
    none is configured, nothing at all for port 0), and
    [/twitch/auth-callback]. *)
Theorem redirect_matches_provider (options : ServerConfig)
    (entropy : nat -> Byte.byte) (w : World) :
  let this := constructor options in
  let provider := initTwitch this in
  (exists location,
     snd (routeRedirectTwitchAuth this entropy w)
       = Sent (mkResponse 302 [("Location", location)] "")
     /\ URL.parse location
        = ("https://id.twitch.tv/oauth2/authorize",
           [ ("client_id", Provider.clientId provider);
             ("redirect_uri", Provider.redirectUri provider);
             ("response_type", "code");
             ("scope", JS.join " " (Provider.appImpliedScopes provider));
             ("state", freshState entropy) ]))
  /\ Provider.clientId provider = clientId (twitch options)
  /\ Provider.clientSecret provider = clientSecret (twitch options)
  /\ Provider.redirectUri provider
     = "http://" +:+ default "localhost" (hostName options)
       +:+ match port options with
           | None => ":13371"
           | Some 0%N => ""
           | Some p => ":" +:+ JS.Number_toString p
           end
       +:+ "/twitch/auth-callback".
Proof.
  intros this provider. split; [|split; [done|split; [done|]]].
  - eexists. split; [reflexivity|]. by apply parse_toString.
  - unfold provider, initTwitch, this, constructor. simpl.
    rewrite !append_assoc. do 2 f_equal.
    destruct (port options) as [[|p]|]; reflexivity.
Qed.

(** ** When the loader completes *)

Lemma loader_completes_iff_loadable this tw l : forall w dir,
  cacheDir w = dir ->
  snd (loadCachedTwitchAccessTokens_loop this tw l w) = Resolved tt
  <-> Forall (loadable tw dir) l.
Proof.
  induction l as [|f l IH]; intros w dir Hdir; [by split|].
  cbn [loadCachedTwitchAccessTokens_loop]. rewrite Forall_cons.
  assert (forall w0, cacheDir w0 = dir -> loadable tw dir f ->
            snd (loadCachedTwitchAccessTokens_loop this tw l w0) = Resolved tt
            <-> loadable tw dir f /\ Forall (loadable tw dir) l) as Hnext.
  { intros w0 H0 Hload. rewrite (IH w0 dir H0). tauto. }
  destruct (JS.startsWith "twitch." f) eqn:Hp; cbn [negb].
  2: { apply Hnext; [done|]. unfold loadable. by rewrite Hp. }
  rewrite Hdir.
  destruct (dir !! f) as [content|] eqn:Hf.
  2: { simpl. split; [done|]. intros [Hload _].
       destruct (Hload Hp) as (? & ? & Hc & _). congruence. }
  destruct (JSON.parse content) as [token|] eqn:Hparse.
  2: { simpl. split; [done|]. intros [Hload _].
       destruct (Hload Hp) as (? & ? & Hc & Hq & _). congruence. }
  destruct (JSON.truthy token) eqn:Htruthy; cbn [negb].
  - destruct (addUser tw _ _) as [[]|e] eqn:Ha.
    2: { simpl. split; [done|]. intros [Hload _].
         destruct (Hload Hp) as (c' & t' & Hc & Hq & Hrej).
         assert (t' = token) as -> by congruence.
         by destruct (Hrej Htruthy e) as [Hno _]. }
    destruct (getUserById tw _) as [[u|]|e] eqn:Hu.
    + assert (loadable tw dir f) as Hload.
      { intros _. exists content, token. split; [done|]. split; [done|].
        intros _ e. split; congruence. }
      destruct (String.eqb _ _); by apply Hnext.
    + apply Hnext; [done|]. intros _. exists content, token.
      split; [done|]. split; [done|]. intros _ e. split; congruence.
    + simpl. split; [done|]. intros [Hload _].
      destruct (Hload Hp) as (c' & t' & Hc & Hq & Hrej).
      assert (t' = token) as -> by congruence.
      by destruct (Hrej Htruthy e) as [_ Hno].
  - apply Hnext; [unfold uncacheTwitchAccessToken; by rewrite cacheDir_start|].
    intros _. exists content, token.
    split; [done|]. split; [done|]. intros Ht. congruence.
Qed.

(** X17.  One bad file makes the whole load fail.  At a start with no file
    operation in flight, when one of the listed files is named [twitch.*] and
    is not there, or holds text that is not JSON, or holds a value that is not
    falsy for which [addUser] throws or the user lookup is rejected,
    [loadCachedTwitchAccessTokens] does not complete: its promise is not
    resolved. *)
Theorem loader_fails_on_bad_file (this : Server) (tw : Twitch)
    (fileNames : list string) (w : World) (f : string) :
  inflight w = [] ->
  In f fileNames ->
  ~ loadable tw (cacheDir w) f ->
  snd (loadCachedTwitchAccessTokens_loop this tw fileNames w) <> Resolved tt.
Proof.
  intros _ Hin Hbad Hend. apply Hbad.
  apply (loader_completes_iff_loadable this tw fileNames w (cacheDir w) eq_refl)
    in Hend.
  exact (proj1 (List.Forall_forall _ _) Hend f Hin).
Qed.

Lemma loader_fails_on_bad_file_witness :
  inflight corruptCache = []
  /\ In "twitch.111.json" (readdir corruptCache)
  /\ ~ loadable sampleTwitch (cacheDir corruptCache) "twitch.111.json"
  /\ snd (loadCachedTwitchAccessTokens_loop sampleServer sampleTwitch
            (readdir corruptCache) corruptCache) <> Resolved tt.
Proof.
  assert (In "twitch.111.json" (readdir corruptCache)) as H1
    by (vm_compute; tauto).
  assert (~ loadable sampleTwitch (cacheDir corruptCache) "twitch.111.json") as H2.
  { intros H. destruct (H eq_refl) as (content & token & Hc & Hp & _).
    vm_compute in Hc. injection Hc as <-. discriminate Hp. }
  split; [reflexivity|]. split; [exact H1|]. split; [exact H2|].
  exact (loader_fails_on_bad_file sampleServer sampleTwitch (readdir corruptCache)
           corruptCache "twitch.111.json" eq_refl H1 H2).
Defined.

(** ** From the callback to the next start *)

(** X18.  A token obtained through the callback is there at the next start.
    Let no file operation be in flight, and let the callback succeed for a
    user id whose cache file name is a file name, with a token whose numbers
    are safe integers.  Once the event loop has
    settled the write that the callback started, the file of the user id holds
    the token's text, and a loader whose listing begins with this file passes
    the token to [addUser]. *)
Theorem token_survives_restart (this : Server) (tw tw' : Twitch) (code st : string)
    (w : World) (uid : string) (token : AccessToken) (u : HelixUser)
    (rest : list string) :
  inflight w = [] ->
  notLegit (Some code) (Some st) w = false ->
  addUserForCode tw code = Resolved uid ->
  getAccessTokenForUser tw uid = Resolved (Some token) ->
  getUserById tw uid = Resolved (Some u) ->
  is_file_name (cacheFileName uid) = true ->
  safe_numbers token = true ->
  let answered := fst (routeTwitchAuthCallback this tw (Some code) (Some st) w) in
  let settled := settle_inflight 0 answered in
  cachePath uid = Some ["_cache"; cacheFileName uid]
  /\ OnDisk.cacheTwitchAccessToken uid token (cacheOnDisk (cacheDir w))
     = Some (cacheOnDisk (cacheDir settled), Resolved tt)
  /\ inflight answered = [WriteFile (cacheFileName uid) (JSON.stringify token)]
  /\ inflight settled = []
  /\ cacheDir settled = <[cacheFileName uid := JSON.stringify token]> (cacheDir w)
  /\ (cacheDir settled !! cacheFileName uid ≫= JSON.parse)
     = Some (JSON.of_AccessToken token)
  /\ exists tail,
       trace (fst (loadCachedTwitchAccessTokens_loop this tw'
                     (cacheFileName uid :: rest) settled))
       = trace settled ++ AddUser (upToDot uid) (JSON.of_AccessToken token) :: tail.
Proof.
  intros Hidle Hlegit Hx Ht Hu Hname _ answered settled.
  assert (inflight answered = [WriteFile (cacheFileName uid) (JSON.stringify token)]
          /\ inflight settled = []
          /\ cacheDir settled
             = <[cacheFileName uid := JSON.stringify token]> (cacheDir w))
    as (Hstarted & Hdone & Hdir).
  { unfold settled, answered, routeTwitchAuthCallback.
    rewrite Hlegit, Hx, Ht, Hu. unfold settle_inflight.
    destruct (String.eqb _ _); simpl; rewrite Hidle; simpl; by rewrite Hidle. }
  assert (cacheDir settled !! cacheFileName uid = Some (JSON.stringify token)) as Hfile
    by (rewrite Hdir; apply lookup_insert_eq).
  split; [by apply join_file_name|].
  split; [rewrite Hdir; by apply onDisk_save|].
  split; [done|]. split; [done|]. split; [done|]. split.
  - rewrite Hfile. apply parse_stringify.
  - by apply loader_registers.
Qed.

Lemma token_survives_restart_witness :
  let n := freshState sampleEntropy in
  inflight sampleIssued = []
  /\ notLegit (Some "abc") (Some n) sampleIssued = false
  /\ is_file_name (cacheFileName "123") = true
  /\ safe_numbers sampleToken = true
  /\ cachePath "123" = Some ["_cache"; cacheFileName "123"].
Proof.
  intros n.
  assert (notLegit (Some "abc") (Some n) sampleIssued = false) as H1
    by (vm_compute; reflexivity).
  split; [reflexivity|]. split; [exact H1|]. split; [reflexivity|].
  split; [reflexivity|].
  exact (proj1 (token_survives_restart sampleServer sampleTwitch sampleTwitch "abc" n
                  sampleIssued "123" sampleToken (mkHelixUser "123" "papakumo") []
                  eq_refl H1 eq_refl eq_refl eq_refl eq_refl eq_refl)).
Defined.
